(** * LLM proxy (Termux edition): fan-out, arbitration, pseudo-streaming, monitor

    A shallow embedding of [app.py] and [monitor.py] and the properties of
    the specification checked against them.

    Conventions of the embedding.
    - A Python [str] is a [string]; one [ascii] stands for one character.
      The texts of messages are opaque; their literals are written as the
      bytes of their UTF-8 encoding.
    - A Python [int] is a [Z]; [len] is a [nat].
    - A value produced by [json.loads] / [response.json()] is a [json]; a
      Python [dict] with string keys is a [gmap string json].
    - Code that may raise lives in the monad [py]: [Return v] or [Raise e].
    - Global state ([current_group_index], the configuration held by
      [config_manager], the fields of [RequestMonitor]) is passed explicitly.
    - Awaiting is modelled with a logical clock: every upstream call has the
      instant at which it completes. *)

From stdpp Require Import gmap strings list fin_maps pretty.
From Stdlib Require Import PrimFloat ZArith Ascii Sorted.

(* ===================================================================== *)
(** * Python values and exceptions *)
(* ===================================================================== *)

(** The exceptions the modelled code can meet. All but [CancelledError]
    derive from [Exception]; [JSONDecodeError] derives from [ValueError]. *)
Inductive exn : Type :=
| TypeError
| KeyError
| IndexError
| AttributeError
| ValueError
| JSONDecodeError
| RequestError
| HTTPStatusError
| HTTPException (status_code : Z) (detail : string)
| CancelledError.

Inductive py (A : Type) : Type :=
| Return (a : A)
| Raise (e : exn).
Arguments Return {A} a.
Arguments Raise {A} e.

#[global] Instance py_ret : MRet py := λ A a, Return a.
#[global] Instance py_bind : MBind py := λ A B f m,
  match m with
  | Return a => f a
  | Raise e => Raise e
  end.
#[global] Instance py_fmap : FMap py := λ A B f m,
  match m with
  | Return a => Return (f a)
  | Raise e => Raise e
  end.

(** [isinstance(e, Exception)]: what a clause [except Exception] catches. *)
Definition is_Exception (e : exn) : bool :=
  match e with
  | CancelledError => false
  | _ => true
  end.

Definition is_HTTPException (e : exn) : bool :=
  match e with
  | HTTPException _ _ => true
  | _ => false
  end.

(** [isinstance(e, ValueError)], for the clause [except ValueError]. *)
Definition is_ValueError (e : exn) : bool :=
  match e with
  | ValueError | JSONDecodeError => true
  | _ => false
  end.

(** [try: body  except <cls> ...: handler] *)
Definition try_except {A} (body : py A) (cls : exn → bool) (handler : exn → py A) : py A :=
  match body with
  | Return a => Return a
  | Raise e => if cls e then handler e else Raise e
  end.

(** What [json.loads] builds. *)
#[warnings="-register-all"]
Inductive json : Type :=
| JNull
| JBool (b : bool)
| JInt (z : Z)
| JFloat (f : float)
| JStr (s : string)
| JArr (l : list json)
| JObj (m : gmap string json).

(** Truth value of an object, as tested by [if x], [x and y], [x or y]. *)
Definition truthy (j : json) : bool :=
  match j with
  | JNull => false
  | JBool b => b
  | JInt z => negb (z =? 0)%Z
  | JFloat f => negb (PrimFloat.eqb f 0%float)
  | JStr s => negb (String.eqb s "")
  | JArr l => negb (Nat.eqb (length l) 0)
  | JObj m => negb (Nat.eqb (size m) 0)
  end.

(** [x == "..."] against a string literal. *)
Definition eq_str (j : json) (s : string) : bool :=
  match j with
  | JStr s' => String.eqb s' s
  | _ => false
  end.

(** [p in s] on strings: [p] occurs in [s]. *)
Fixpoint str_contains (p s : string) : bool :=
  String.prefix p s ||
  match s with
  | EmptyString => false
  | String _ s' => str_contains p s'
  end.

(** ["key" in x] *)
Definition py_in (k : string) (j : json) : py bool :=
  match j with
  | JObj m => Return (bool_decide (is_Some (m !! k)))
  | JArr l => Return (existsb (λ x, eq_str x k) l)
  | JStr s => Return (str_contains k s)
  | _ => Raise TypeError
  end.

(** [x["key"]] *)
Definition py_getitem (j : json) (k : string) : py json :=
  match j with
  | JObj m => match m !! k with
              | Some v => Return v
              | None => Raise KeyError
              end
  | _ => Raise TypeError
  end.

(** [x[i]] for an index [i >= 0]. A dict built from JSON has string keys
    only, so an integer subscript is a [KeyError]. *)
Definition py_index (j : json) (i : nat) : py json :=
  match j with
  | JArr l => match l !! i with
              | Some v => Return v
              | None => Raise IndexError
              end
  | JStr s => match String.get i s with
              | Some c => Return (JStr (String c EmptyString))
              | None => Raise IndexError
              end
  | JObj _ => Raise KeyError
  | _ => Raise TypeError
  end.

(** [x.get("key", default)]: only a dict has the method. *)
Definition py_get (j : json) (k : string) (dflt : json) : py json :=
  match j with
  | JObj m => Return (default dflt (m !! k))
  | _ => Raise AttributeError
  end.

(** [len(x)] *)
Definition py_len (j : json) : py nat :=
  match j with
  | JStr s => Return (String.length s)
  | JArr l => Return (length l)
  | JObj m => Return (size m)
  | _ => Raise TypeError
  end.

(** [x[i:i+n]] for [0 <= i]: defined on sequences, not on dicts. *)
Definition py_slice (j : json) (i n : nat) : py json :=
  match j with
  | JStr s => Return (JStr (String.substring i n s))
  | JArr l => Return (JArr (take n (drop i l)))
  | _ => Raise TypeError
  end.

(** [s += x] for a string [s]. *)
Definition py_str_add (s : string) (j : json) : py string :=
  match j with
  | JStr s' => Return (s +:+ s')
  | _ => Raise TypeError
  end.

(** [str.isspace] on one character (code points below 256). *)
Definition py_isspace (a : ascii) : bool :=
  let n := nat_of_ascii a in
  ((9 <=? n) && (n <=? 13)) || ((28 <=? n) && (n <=? 32)) || (n =? 133) || (n =? 160).

Fixpoint lstrip (s : string) : string :=
  match s with
  | EmptyString => EmptyString
  | String a s' => if py_isspace a then lstrip s' else s
  end.

Definition rstrip (s : string) : string := String.rev (lstrip (String.rev s)).

(** [s.strip()] *)
Definition strip (s : string) : string := rstrip (lstrip s).

(** [s.split(sep)] for a one-character separator. *)
Fixpoint split (sep : ascii) (s : string) : list string :=
  match s with
  | EmptyString => [EmptyString]
  | String a s' =>
      if Ascii.eqb a sep then EmptyString :: split sep s'
      else match split sep s' with
           | w :: ws => String a w :: ws
           | [] => [String a EmptyString]
           end
  end.

(** [s[n:]] *)
Fixpoint str_drop (n : nat) (s : string) : string :=
  match n, s with
  | 0, _ => s
  | S n', String _ s' => str_drop n' s'
  | S _, EmptyString => EmptyString
  end.

(** ["".join(chunks)] *)
Definition join (chunks : list string) : string := foldr String.append "" chunks.

(** [range(0, stop, step)] for [step >= 1]; [stop] steps of fuel are enough. *)
Fixpoint range_from (fuel i stop step : nat) : list nat :=
  match fuel with
  | 0 => []
  | S fuel' => if i <? stop then i :: range_from fuel' (i + step) stop step else []
  end.

Definition py_range (stop step : nat) : list nat := range_from stop 0 stop step.

(** [max(xs, key=key)]: the first element whose key is the greatest. *)
Fixpoint max_by {A} (key : A → nat) (best : A) (xs : list A) : A :=
  match xs with
  | [] => best
  | x :: xs' => max_by key (if key best <? key x then x else best) xs'
  end.

Definition py_max {A} (key : A → nat) (xs : list A) : option A :=
  match xs with
  | [] => None
  | x :: xs' => Some (max_by key x xs')
  end.


(* ===================================================================== *)
(** * Configuration and key rotation ([ConfigManager], [get_current_api_keys]) *)
(* ===================================================================== *)

(** The fields of [config.ini] the modelled code reads, as
    [get_server_config], [get_api_keys] and [get_base_url] return them. The
    file is taken to be well formed: every section and key is present, the
    numbers parse and the groups are lists of strings. *)
Record config : Type := Config {
  api_key : string;
  min_response_length : Z;
  request_timeout : Z;
  group1 : list string;
  group2 : list string;
  base_url : string
}.

(** What [config_manager] answers to the two reads of
    [send_single_request], on any configuration. [get_base_url()] returns
    the entry [base_url] of section [API], or raises [KeyError] when the
    section or the entry is missing. [get_server_config()] returns its
    dict, of which the call reads ['request_timeout'], or raises
    ([KeyError] on a missing entry, [ValueError] on a number that does not
    parse). [None] stands for the exception. *)
Record config_reads : Type := ConfigReads {
  get_base_url : option string;
  get_request_timeout : option Z
}.

(** The two reads on a well-formed configuration. *)
Definition well_formed (cfg : config) : config_reads :=
  ConfigReads (Some (base_url cfg)) (Some (request_timeout cfg)).
Coercion well_formed : config >-> config_reads.

(** Process-wide state: the rotation counter, the configuration held in
    memory by [config_manager], and the configuration file on disk. *)
Record world : Type := World {
  current_group_index : Z;
  memory : config;
  disk : config
}.

(** [config_manager.force_reload_config()] *)
Definition force_reload_config (w : world) : world :=
  World (current_group_index w) (disk w) (disk w).

(** [key and not key.startswith("YOUR_") and len(key) > 10] *)
Definition valid_key (key : string) : bool :=
  negb (String.eqb key "") && negb (String.prefix "YOUR_" key) && (10 <? String.length key).

Record selection : Type := Selection {
  valid_keys : list string;
  logged_group : string;
  world_after : world
}.

(** [get_current_api_keys()]. [logged_group] is the group named in the
    function's log line. *)
Definition get_current_api_keys (w : world) : selection :=
  let w := force_reload_config w in
  let api_keys := memory w in
  let '(keys, index) :=
    if (current_group_index w =? 0)%Z
    then (group1 api_keys, 1%Z)
    else (group2 api_keys, 0%Z) in
  Selection (List.filter valid_key keys)
            (if (index =? 1)%Z then "group1" else "group2")
            (World index (memory w) (disk w)).

(** Successive calls of [get_current_api_keys]; before the k-th call the
    configuration file holds [edits !! k] (it may be edited between calls).
    The result lists what each call selected. *)
Fixpoint rotate (edits : list config) (w : world) : list selection :=
  match edits with
  | [] => []
  | c :: edits' =>
      let sel := get_current_api_keys (World (current_group_index w) (memory w) c) in
      sel :: rotate edits' (world_after sel)
  end.

(* ===================================================================== *)
(** * One upstream call ([send_single_request]) *)
(* ===================================================================== *)

(** The arguments of [client.post]. *)
Record upstream_call : Type := UpstreamCall {
  call_url : string;
  call_authorization : string;
  call_content_type : string;
  call_json : gmap string json;
  call_timeout : Z
}.

(** What [await client.post(...)] does: it raises [httpx.RequestError]
    (connection failure, timeout) or returns a response. *)
Inductive post_result : Type :=
| PostRaises
| Response (status_code : Z) (text : string).

Definition supported_params : gset string :=
  {[ "model"; "messages"; "temperature"; "max_tokens"; "top_p"; "top_k"; "stop" ]}.

(** The loop that fills [cleaned_data]. *)
Definition clean_request_data (request_data : gmap string json) : gmap string json :=
  map_fold (λ key value cleaned_data,
              if bool_decide (key ∈ supported_params)
              then <[key := value]> cleaned_data
              else cleaned_data)
           ∅ request_data.

Definition prepare_call (cfg : config) (key : string) (request_data : gmap string json)
  : upstream_call :=
  UpstreamCall (base_url cfg +:+ "/openai/chat/completions")
               ("Bearer " +:+ key)
               "application/json"
               (clean_request_data request_data)
               (request_timeout cfg).

(** [response.raise_for_status()]: httpx raises [HTTPStatusError] unless
    the status is 2xx. *)
Definition raise_for_status (status : Z) : py unit :=
  if (200 <=? status)%Z && (status <=? 299)%Z then Return () else Raise HTTPStatusError.

(** The variables of the event-stream loop. *)
Record sse_state : Type := SseState {
  sse_content : string;
  final_id : json;
  final_model : json;
  final_created : json
}.

Definition is_JSONDecodeError (e : exn) : bool :=
  match e with
  | JSONDecodeError => true
  | _ => false
  end.

Definition is_RequestError (e : exn) : bool :=
  match e with
  | RequestError => true
  | _ => false
  end.

Section upstream.
(** [json.loads]; [None] stands for [json.JSONDecodeError]. *)
Variable loads : string → option json.
(** [int(time.time())] during the call. *)
Variable now : Z.

Definition json_loads (s : string) : py json :=
  match loads s with
  | Some j => Return j
  | None => Raise JSONDecodeError
  end.

(** [if k in data: var = data[k]] *)
Definition take_field (data : json) (k : string) (var : json) : py json :=
  has ← py_in k data;
  if has : bool then py_getitem data k else Return var.

(** One iteration of [for line in lines]. *)
Definition sse_line (st : sse_state) (line : string) : py sse_state :=
  if String.prefix "data: " line then
    try_except
      (data ← json_loads (str_drop 6 line);
       if eq_str data "[DONE]" then Return st
       else
         has ← py_in "choices" data;
         nonempty ← (if has : bool
                     then truthy <$> py_getitem data "choices"
                     else Return false);
         if nonempty : bool then
           choices ← py_getitem data "choices";
           first ← py_index choices 0;
           delta ← py_get first "delta" (JObj ∅);
           has_content ← py_in "content" delta;
           content ← (if has_content : bool
                      then py_getitem delta "content" ≫= py_str_add (sse_content st)
                      else Return (sse_content st));
           id ← take_field data "id" (final_id st);
           model ← take_field data "model" (final_model st);
           created ← take_field data "created" (final_created st);
           Return (SseState content id model created)
         else Return st)
      is_JSONDecodeError (λ _, Return st)
  else Return st.

Fixpoint sse_lines (st : sse_state) (lines : list string) : py sse_state :=
  match lines with
  | [] => Return st
  | line :: lines' => st' ← sse_line st line; sse_lines st' lines'
  end.

(** The completion object built from the accumulated deltas. *)
Definition completion_of (st : sse_state) : json :=
  JObj {[ "id" := if truthy (final_id st) then final_id st
                  else JStr ("chatcmpl-" +:+ pretty now);
          "object" := JStr "chat.completion";
          "created" := final_created st;
          "model" := if truthy (final_model st) then final_model st
                     else JStr "gemini-2.5-flash";
          "choices" := JArr [
            JObj {[ "index" := JInt 0;
                    "message" := JObj {[ "role" := JStr "assistant";
                                         "content" := JStr (sse_content st) ]};
                    "finish_reason" := JStr "stop" ]} ];
          "usage" := JObj {[ "prompt_tokens" := JInt 0;
                             "completion_tokens" := JInt 0;
                             "total_tokens" := JInt 0 ]} ]}.

(** [response.json()] inside its own [try ... except ValueError]; it
    parses the body that [response.text] shows, so it is [loads] again. *)
Definition response_json (response_text : string) : py (option json) :=
  try_except (Some <$> json_loads response_text) is_ValueError (λ _, Return None).

(** The body of the outer [try] once [client.post] has answered. *)
Definition handle_response (status : Z) (response_text : string) : py (option json) :=
  raise_for_status status;;
  if str_contains "data:" response_text then
    let lines := split "010"%char (strip response_text) in
    st ← sse_lines (SseState "" (JStr "") (JStr "") (JInt now)) lines;
    if negb (String.eqb (sse_content st) "")
    then Return (Some (completion_of st))
    else response_json response_text
  else response_json response_text.

(** [send_single_request(client, api_key, request_data)]. The URL is
    built before the [try], so a [KeyError] of [get_base_url()] leaves the
    function; the timeout is read inside the [try], among the arguments of
    [client.post], so an exception of [get_server_config()] is caught and
    no call is sent. Both [except] clauses log the error and return
    [None]. *)
Definition send_single_request (cfg : config_reads) (client : upstream_call → post_result)
    (key : string) (request_data : gmap string json) : py (option json) :=
  let cleaned_data := clean_request_data request_data in
  url ← match get_base_url cfg with
        | Some base => Return (base +:+ "/openai/chat/completions")
        | None => Raise KeyError
        end;
  try_except
    (timeout ← match get_request_timeout cfg with
               | Some timeout => Return timeout
               | None => Raise KeyError
               end;
     match client (UpstreamCall url ("Bearer " +:+ key) "application/json"
                                cleaned_data timeout) with
     | PostRaises => Raise RequestError
     | Response status response_text => handle_response status response_text
     end)
    is_Exception
    (λ e, if is_RequestError e then Return None else Return None).

(* ===================================================================== *)
(** * Pseudo-streaming ([stream_response_content]) *)
(* ===================================================================== *)

(** An item yielded by [generate_stream]: [SSEData j] is the text
    ["data: " + json.dumps(j) + "\n\n"], [SSEDone] is ["data: [DONE]\n\n"]. *)
Inductive sse_event : Type :=
| SSEData (payload : json)
| SSEDone.

(** What the client receives from a [StreamingResponse]: the events the
    generator yielded and, when it raised, the exception that ended it. *)
Record streaming_response : Type := StreamingResponse {
  events : list sse_event;
  aborted : option exn
}.

Definition chunk_data (response_id created_time model_name chunk : json) : json :=
  JObj {[ "id" := response_id;
          "object" := JStr "chat.completion.chunk";
          "created" := created_time;
          "model" := model_name;
          "choices" := JArr [
            JObj {[ "index" := JInt 0;
                    "delta" := JObj {[ "content" := chunk ]};
                    "finish_reason" := JNull ]} ] ]}.

Definition final_data (response_id created_time model_name : json) : json :=
  JObj {[ "id" := response_id;
          "object" := JStr "chat.completion.chunk";
          "created" := created_time;
          "model" := model_name;
          "choices" := JArr [
            JObj {[ "index" := JInt 0;
                    "delta" := JObj ∅;
                    "finish_reason" := JStr "stop" ]} ] ]}.

(** The [for i in range(0, len(content), chunk_size)] loop; the pauses
    [asyncio.sleep(0.01)] between items are not represented. *)
Fixpoint emit_chunks (response_id created_time model_name content : json)
    (chunk_size : nat) (starts : list nat) : streaming_response :=
  match starts with
  | [] => StreamingResponse
            [SSEData (final_data response_id created_time model_name); SSEDone] None
  | i :: starts' =>
      match py_slice content i chunk_size with
      | Raise e => StreamingResponse [] (Some e)
      | Return chunk =>
          let rest := emit_chunks response_id created_time model_name content
                                  chunk_size starts' in
          StreamingResponse
            (SSEData (chunk_data response_id created_time model_name chunk) :: events rest)
            (aborted rest)
      end
  end.

Definition generate_stream (response_id created_time model_name content : json)
  : streaming_response :=
  match py_len content with
  | Raise e => StreamingResponse [] (Some e)
  | Return n =>
      let chunk_size := Nat.max 1 (n / 50) in
      emit_chunks response_id created_time model_name content chunk_size
                  (py_range n chunk_size)
  end.

Definition stream_response_content (result content : json) : py streaming_response :=
  response_id ← py_get result "id" (JStr ("chatcmpl-" +:+ pretty now));
  created_time ← py_get result "created" (JInt now);
  model_name ← py_get result "model" (JStr "gemini-2.5-flash");
  Return (generate_stream response_id created_time model_name content).

(** The [content] of the delta of a chunk event, when it has one. *)
Definition delta_content (e : sse_event) : option json :=
  match e with
  | SSEDone => None
  | SSEData payload =>
      match (choices ← py_getitem payload "choices";
             first ← py_index choices 0;
             delta ← py_getitem first "delta";
             py_getitem delta "content") with
      | Return c => Some c
      | Raise _ => None
      end
  end.

End upstream.

(* ===================================================================== *)
(** * Fan-out and arbitration ([chat_completions_proxy],
      [generate_fake_stream_response]) *)
(* ===================================================================== *)

(** An [asyncio] task running [send_single_request] for one key: the
    instant it completes (counted from the dispatch) and what awaiting it
    gives. *)
Record task : Type := Task {
  task_key : string;
  finish_at : nat;
  outcome : py (option json)
}.

(** An entry of [valid_responses]: the keys ['result'], ['content'] and
    ['token_count'] of the dict the code appends. *)
Record candidate : Type := Candidate {
  cand_result : json;
  cand_content : json;
  token_count : nat
}.

(** [task.done()] when the clock shows [clock]. *)
Definition done_at (clock : nat) (t : task) : bool := finish_at t <=? clock.

(** [asyncio.as_completed(tasks)]: the tasks in the order they complete;
    tasks completing at the same instant keep their launch order. *)
Fixpoint insert_by_finish (t : task) (sorted : list task) : list task :=
  match sorted with
  | [] => [t]
  | u :: sorted' =>
      if finish_at t <=? finish_at u then t :: sorted
      else u :: insert_by_finish t sorted'
  end.

Definition as_completed (tasks : list task) : list task :=
  foldr insert_by_finish [] tasks.

(** The test both loops apply to a result, and the [append] that follows:
    [if result and "choices" in result and result["choices"]: ...]. *)
Definition consider (min_length : Z) (valid_responses : list candidate)
    (result : option json) : py (list candidate) :=
  match result with
  | None => Return valid_responses
  | Some result =>
      success ← (if truthy result then
                   has ← py_in "choices" result;
                   if has : bool then truthy <$> py_getitem result "choices"
                   else Return false
                 else Return false);
      if success : bool then
        choices ← py_getitem result "choices";
        first ← py_index choices 0;
        message ← py_get first "message" (JObj ∅);
        message_content ← py_get message "content" (JStr "");
        n ← py_len message_content;
        if (min_length <=? Z.of_nat n)%Z
        then Return (valid_responses ++ [Candidate result message_content n])
        else Return valid_responses
      else Return valid_responses
  end.

Definition is_CancelledError (e : exn) : bool :=
  match e with
  | CancelledError => true
  | _ => false
  end.

(** What the [async with] block has computed when it reaches the choice
    of the best response. *)
Record gathered : Type := Gathered {
  valid_responses : list candidate;
  clock : nat;
  cancelled : list task
}.

(** [for future in asyncio.as_completed(tasks)]: every [await future]
    moves the clock to the completion of that task. *)
Fixpoint collect (min_length : Z) (clock : nat) (valid_responses : list candidate)
    (arrivals : list task) : py (nat * list candidate) :=
  match arrivals with
  | [] => Return (clock, valid_responses)
  | t :: arrivals' =>
      valid_responses' ←
        try_except (result ← outcome t; consider min_length valid_responses result)
                   is_CancelledError (λ _, Return valid_responses);
      collect min_length (Nat.max clock (finish_at t)) valid_responses' arrivals'
  end.

(** The timeout of [asyncio.wait(remaining_tasks, timeout=15)]. *)
Definition grace_period : nat := 15.

(** [for task in done]: a failure while reading one result is logged and
    skipped. [done] is a set; the model walks it in launch order. *)
Fixpoint collect_done (min_length : Z) (valid_responses : list candidate)
    (done : list task) : py (list candidate) :=
  match done with
  | [] => Return valid_responses
  | t :: done' =>
      valid_responses' ←
        try_except (result ← outcome t; consider min_length valid_responses result)
                   is_Exception (λ _, Return valid_responses);
      collect_done min_length valid_responses' done'
  end.

(** The block under [if valid_responses:] that waits for the remaining
    tasks and cancels those still pending. No modelled operation raises
    [asyncio.TimeoutError], so the [try] around it is transparent. *)
Definition wait_remaining (min_length : Z) (tasks : list task) (g : gathered) : py gathered :=
  match valid_responses g with
  | [] => Return g
  | _ :: _ =>
      let remaining_tasks := List.filter (λ t, negb (done_at (clock g) t)) tasks in
      match remaining_tasks with
      | [] => Return g
      | _ :: _ =>
          let deadline := clock g + grace_period in
          let done := List.filter (done_at deadline) remaining_tasks in
          let pending := List.filter (λ t, negb (done_at deadline t)) remaining_tasks in
          valid_responses' ← collect_done min_length (valid_responses g) done;
          Return (Gathered valid_responses'
                           (match pending with
                            | [] => foldr (λ t, Nat.max (finish_at t)) (clock g) done
                            | _ :: _ => deadline
                            end)
                           pending)
      end
  end.

(** The two loops, as they stand in both handlers. *)
Definition gather (min_length : Z) (tasks : list task) : py gathered :=
  '(clock, valid_responses) ← collect min_length 0 [] (as_completed tasks);
  wait_remaining min_length tasks (Gathered valid_responses clock []).

(** The choice that ends the block: the longest valid response, or the
    [HTTPException] raised after the block when there is none. *)
Definition arbitrate (min_length : Z) (tasks : list task) : py candidate :=
  g ← gather min_length tasks;
  match py_max token_count (valid_responses g) with
  | Some best_response => Return best_response
  | None => Raise (HTTPException 503 "所有上游API请求均失败")
  end.

Inductive http_response : Type :=
| JSONResponse (content : json)
| Streaming (body : streaming_response).

(** A float that is neither a NaN nor an infinity. *)
Definition finite (f : float) : bool :=
  match PrimFloat.classify f with
  | FloatClass.PInf | FloatClass.NInf | FloatClass.NaN => false
  | _ => true
  end.

(** What [json.dumps(x, allow_nan=False)] accepts: a value that holds no
    NaN and no infinity at any depth. *)
Fixpoint json_finite (j : json) : bool :=
  match j with
  | JFloat f => finite f
  | JArr l => forallb json_finite l
  | JObj m => map_fold (λ _ v acc, json_finite v && acc) true m
  | _ => true
  end.

(** One inbound request served: the reply (an [HTTPException] is the error
    reply), the process state afterwards, the upstream calls issued. *)
Record served : Type := Served {
  reply : py http_response;
  world_end : world;
  upstream_calls : list upstream_call
}.

Section proxy.
Variable loads : string → option json.
Variable now : Z.
(** [str(e)], the text of an exception. *)
Variable exn_text : exn → string.
(** The network: for the i-th task of a request and the call it sends, the
    instant the call completes and how. *)
Variable net : nat → upstream_call → nat * post_result.
(** Whether the body of a [JSONResponse] can be rendered: starlette does
    it in the constructor, [json.dumps(content, ensure_ascii=False,
    allow_nan=False, ...).encode("utf-8")], which raises a [ValueError] on
    a NaN or an infinity ([json_finite]) and on a string that has no
    UTF-8 encoding. *)
Variable renders : json → bool.

(** [JSONResponse(content=content)] *)
Definition json_response (content : json) : py http_response :=
  if renders content then Return (JSONResponse content) else Raise ValueError.

(** [except HTTPException: raise] then [except Exception as e: raise
    HTTPException(status_code=500, ...)], the tail of both handlers. *)
Definition internal_error {A} (body : py A) : py A :=
  try_except body is_Exception
    (λ e, if is_HTTPException e then Raise e
          else Raise (HTTPException 500 ("服务器内部错误: " +:+ exn_text e))).

(** [asyncio.create_task(send_single_request(client, key, request_data))
     for key in current_keys] *)
Definition launch (cfg : config) (request_data : gmap string json)
    (current_keys : list string) : list task :=
  imap (λ i key,
          Task key
               (net i (prepare_call cfg key request_data)).1
               (send_single_request loads now cfg (λ call, (net i call).2) key request_data))
       current_keys.

Definition calls_of (cfg : config) (request_data : gmap string json)
    (current_keys : list string) : list upstream_call :=
  (λ key, prepare_call cfg key request_data) <$> current_keys.

Definition generate_fake_stream_response (w : world) (request_data : gmap string json)
  : served :=
  let sel := get_current_api_keys w in
  let w := world_after sel in
  match valid_keys sel with
  | [] => Served (internal_error (Raise (HTTPException 500 "没有可用的API密钥"))) w []
  | _ :: _ =>
      let tasks := launch (memory w) request_data (valid_keys sel) in
      Served
        (internal_error
           (best_response ← arbitrate (min_response_length (memory w)) tasks;
            Streaming <$> stream_response_content now (cand_result best_response)
                                                  (cand_content best_response)))
        w (calls_of (memory w) request_data (valid_keys sel))
  end.

(** The check of the [Authorization] header at the top of the handler. *)
Definition check_authorization (server_config : config) (api_key_header : option string)
  : py unit :=
  match api_key_header with
  | None => Raise (HTTPException 401 "缺少API密钥或格式不正确")
  | Some header =>
      if String.eqb header "" || negb (String.prefix "Bearer " header)
      then Raise (HTTPException 401 "缺少API密钥或格式不正确")
      else
        match split " "%char header !! 1 with
        | None => Raise IndexError
        | Some provided_key =>
            if String.eqb provided_key "" ||
               negb (String.eqb provided_key (api_key server_config))
            then Raise (HTTPException 401 "API密钥无效")
            else Return ()
        end
  end.

(** [chat_completions_proxy(chat_request, request)]: [api_key_header] is
    [request.headers.get("Authorization")], [stream] is
    [chat_request.stream], [request_data] is [await request.json()]. *)
Definition chat_completions_proxy (w : world) (api_key_header : option string)
    (stream : bool) (request_data : gmap string json) : served :=
  let server_config := memory w in
  match check_authorization server_config api_key_header with
  | Raise e => Served (internal_error (Raise e)) w []
  | Return _ =>
      if stream then
        let s := generate_fake_stream_response w request_data in
        Served (internal_error (reply s)) (world_end s) (upstream_calls s)
      else
        let sel := get_current_api_keys w in
        let w := world_after sel in
        match valid_keys sel with
        | [] => Served (internal_error
                          (Raise (HTTPException 500 "服务器未配置有效的API密钥"))) w []
        | _ :: _ =>
            let tasks := launch (memory w) request_data (valid_keys sel) in
            Served
              (internal_error
                 (best_response ← arbitrate (min_response_length server_config) tasks;
                  json_response (cand_result best_response)))
              w (calls_of (memory w) request_data (valid_keys sel))
        end
  end.

End proxy.

(* ===================================================================== *)
(** * The request monitor ([monitor.py]) *)
(* ===================================================================== *)

(** [collections.deque(maxlen=n).append(x)]: the item goes to the right
    end, then the leftmost item is discarded if the deque is over
    [maxlen]. *)
Definition deque_append {A} (maxlen : nat) (d : list A) (x : A) : list A :=
  let d' := d ++ [x] in
  if maxlen <? length d' then drop 1 d' else d'.

(** [d[key] += 1] on a [defaultdict(int)]. *)
Definition incr `{Countable K} (key : K) (d : gmap K nat) : gmap K nat :=
  <[key := S (default 0 (d !! key))]> d.

(** [list(d)[-limit:]] *)
Definition last_slice {A} (limit : Z) (l : list A) : list A :=
  if (0 <? limit)%Z then drop (length l - Z.to_nat limit) l
  else drop (Z.to_nat (- limit)) l.

Record log_entry : Type := LogEntry {
  log_timestamp : string;
  log_level : string;
  log_message : string;
  log_details : gmap string json
}.

Record error_detail : Type := ErrorDetail {
  err_timestamp : string;
  err_api_key : string;
  err_status_code : Z;
  err_error : string;
  err_response_time : float
}.

(** The fields of a [RequestMonitor] other than its lock. [hourly_stats]
    is created and never written. *)
Record monitor : Type := Monitor {
  max_log_entries : nat;
  total_requests : nat;
  successful_requests : nat;
  failed_requests : nat;
  truncated_responses : nat;
  status_codes : gmap Z nat;
  api_key_usage : gmap string nat;
  api_key_failures : gmap string nat;
  response_times : list float;
  recent_logs : list log_entry;
  error_details : list error_detail;
  start_time : string
}.

(** [RequestMonitor.__init__(max_log_entries)], at wall-clock time [now]. *)
Definition RequestMonitor (max_log_entries : nat) (now : string) : monitor :=
  Monitor max_log_entries 0 0 0 0 ∅ ∅ ∅ [] [] [] now.

(** The assignments of the methods. [count_request] is the three
    statements that open [record_request]. *)
Definition count_request (status_code : Z) (key : string) (m : monitor) : monitor :=
  Monitor (max_log_entries m) (S (total_requests m)) (successful_requests m)
          (failed_requests m) (truncated_responses m)
          (incr status_code (status_codes m)) (incr key (api_key_usage m))
          (api_key_failures m) (response_times m) (recent_logs m) (error_details m)
          (start_time m).

Definition count_success (m : monitor) : monitor :=
  Monitor (max_log_entries m) (total_requests m) (S (successful_requests m))
          (failed_requests m) (truncated_responses m) (status_codes m)
          (api_key_usage m) (api_key_failures m) (response_times m) (recent_logs m)
          (error_details m) (start_time m).

Definition count_truncated (m : monitor) : monitor :=
  Monitor (max_log_entries m) (total_requests m) (successful_requests m)
          (failed_requests m) (S (truncated_responses m)) (status_codes m)
          (api_key_usage m) (api_key_failures m) (response_times m) (recent_logs m)
          (error_details m) (start_time m).

Definition count_failure (key : string) (m : monitor) : monitor :=
  Monitor (max_log_entries m) (total_requests m) (successful_requests m)
          (S (failed_requests m)) (truncated_responses m) (status_codes m)
          (api_key_usage m) (incr key (api_key_failures m)) (response_times m)
          (recent_logs m) (error_details m) (start_time m).

(** [self.error_details.append(...)], a [deque(maxlen=100)]. *)
Definition append_error (e : error_detail) (m : monitor) : monitor :=
  Monitor (max_log_entries m) (total_requests m) (successful_requests m)
          (failed_requests m) (truncated_responses m) (status_codes m)
          (api_key_usage m) (api_key_failures m) (response_times m) (recent_logs m)
          (deque_append 100 (error_details m) e) (start_time m).

(** [self.response_times.append(response_time)], a [deque(maxlen=100)]. *)
Definition append_response_time (response_time : float) (m : monitor) : monitor :=
  Monitor (max_log_entries m) (total_requests m) (successful_requests m)
          (failed_requests m) (truncated_responses m) (status_codes m)
          (api_key_usage m) (api_key_failures m)
          (deque_append 100 (response_times m) response_time)
          (recent_logs m) (error_details m) (start_time m).

(** [self.recent_logs.append(log_entry)], a [deque(maxlen=max_log_entries)]. *)
Definition append_log (entry : log_entry) (m : monitor) : monitor :=
  Monitor (max_log_entries m) (total_requests m) (successful_requests m)
          (failed_requests m) (truncated_responses m) (status_codes m)
          (api_key_usage m) (api_key_failures m) (response_times m)
          (deque_append (max_log_entries m) (recent_logs m) entry)
          (error_details m) (start_time m).

(** The body of [reset_stats]. *)
Definition clear_stats (now : string) (m : monitor) : monitor :=
  Monitor (max_log_entries m) 0 0 0 0 ∅ ∅ ∅ [] [] [] now.

(** The counters of the dict [get_stats] returns; its rates, average and
    uptime (floating point and wall-clock arithmetic) are left out. *)
Record stats : Type := Stats {
  stats_total_requests : nat;
  stats_successful_requests : nat;
  stats_failed_requests : nat;
  stats_truncated_responses : nat;
  stats_status_codes : gmap Z nat;
  stats_error_status_codes : gmap Z nat;
  stats_start_time : string;
  stats_api_keys_total : nat;
  stats_api_keys_failed : nat
}.

Definition snapshot (m : monitor) : stats :=
  Stats (total_requests m) (successful_requests m) (failed_requests m)
        (truncated_responses m) (status_codes m)
        (filter (λ kv, (400 ≤ kv.1)%Z) (status_codes m))
        (start_time m)
        (size (api_key_usage m))
        (size (filter (λ kv, 0 < kv.2) (api_key_failures m))).

(** ** Coroutines over the monitor and its lock

    A coroutine is the sequence of its effects: taking and releasing
    [self._lock] (an [asyncio.Lock], which is not reentrant), updating the
    fields, reading them. *)
Inductive co (A : Type) : Type :=
| Done (a : A)
| Acquire (k : co A)
| Release (k : co A)
| Update (f : monitor → monitor) (k : co A)
| Read (k : monitor → co A).
Arguments Done {A} a.
Arguments Acquire {A} k.
Arguments Release {A} k.
Arguments Update {A} f k.
Arguments Read {A} k.

Fixpoint co_bind {A B} (f : A → co B) (c : co A) : co B :=
  match c with
  | Done a => f a
  | Acquire k => Acquire (co_bind f k)
  | Release k => Release (co_bind f k)
  | Update g k => Update g (co_bind f k)
  | Read k => Read (λ m, co_bind f (k m))
  end.

#[global] Instance co_ret : MRet co := λ A a, Done a.
#[global] Instance co_mbind : MBind co := λ A B f c, co_bind f c.

Definition update (f : monitor → monitor) : co unit := Update f (Done ()).

(** [async with self._lock: body] *)
Definition with_lock {A} (body : co A) : co A :=
  Acquire (a ← body; Release (Done a)).

Section monitor_methods.
(** [datetime.now().isoformat()] during the call. *)
Variable now : string.
(** [f"{x:.2f}"] *)
Variable format_2f : float → string.

(** [RequestMonitor.add_log] *)
Definition add_log (level message : string) (details : option (gmap string json))
  : co unit :=
  with_lock (update (append_log (LogEntry now level message (default ∅ details)))).

(** [RequestMonitor.record_request] *)
Definition record_request (key : string) (status_code : Z) (response_time : float)
    (response_length min_length : Z) (error_msg : option string) : co unit :=
  with_lock (
    update (count_request status_code key);;
    (if (200 <=? status_code)%Z && (status_code <? 300)%Z then
       update count_success;;
       if (0 <? response_length)%Z && (response_length <? min_length)%Z then
         update count_truncated;;
         add_log "WARNING"
                 ("响应被截断: " +:+ pretty response_length +:+ " < " +:+ pretty min_length)
                 (Some {[ "api_key" := JStr (String.substring 0 8 key +:+ "...");
                          "response_length" := JInt response_length;
                          "min_length" := JInt min_length ]})
       else Done ()
     else
       update (count_failure key);;
       match error_msg with
       | Some msg =>
           if negb (String.eqb msg "") then
             update (append_error
                       (ErrorDetail now (String.substring 0 8 key +:+ "...")
                                    status_code msg response_time))
           else Done ()
       | None => Done ()
       end);;
    update (append_response_time response_time);;
    add_log (if (200 <=? status_code)%Z && (status_code <? 300)%Z then "INFO" else "ERROR")
            ("请求完成: " +:+ pretty status_code)
            (Some {[ "api_key" := JStr (String.substring 0 8 key +:+ "...");
                     "response_time" := JStr (format_2f response_time +:+ "s");
                     "response_length" := JInt response_length ]})).

(** [RequestMonitor.get_stats] *)
Definition get_stats : co stats :=
  with_lock (Read (λ m, Done (snapshot m))).

(** [RequestMonitor.get_recent_logs] *)
Definition get_recent_logs (limit : Z) : co (list log_entry) :=
  with_lock (Read (λ m, Done (last_slice limit (recent_logs m)))).

(** [RequestMonitor.get_error_details] *)
Definition get_error_details (limit : Z) : co (list error_detail) :=
  with_lock (Read (λ m, Done (last_slice limit (error_details m)))).

(** [RequestMonitor.reset_stats] *)
Definition reset_stats : co unit :=
  with_lock (update (clear_stats now)).

End monitor_methods.

(** ** Running coroutines *)

(** One step of a coroutine on the monitor [m] whose lock is taken iff
    [locked]. [None]: the coroutine has returned, or it waits for the
    lock. *)
Definition step {A} (m : monitor) (locked : bool) (c : co A)
  : option (monitor * bool * co A) :=
  match c with
  | Done _ => None
  | Acquire k => if locked then None else Some (m, true, k)
  | Release k => Some (m, false, k)
  | Update f k => Some (f m, locked, k)
  | Read k => Some (m, locked, k m)
  end.

(** A coroutine run alone for at most [n] steps. *)
Fixpoint run {A} (n : nat) (m : monitor) (locked : bool) (c : co A)
  : monitor * bool * co A :=
  match n with
  | 0 => (m, locked, c)
  | S n' => match step m locked c with
            | None => (m, locked, c)
            | Some (m', locked', c') => run n' m' locked' c'
            end
  end.

Definition returned {A} (c : co A) : bool :=
  match c with
  | Done _ => true
  | _ => false
  end.

(** A call of one of the monitor's methods. *)
Inductive operation : Type :=
| RecordRequest (now : string) (format_2f : float → string) (key : string)
                (status_code : Z) (response_time : float)
                (response_length min_length : Z) (error_msg : option string)
| AddLog (now : string) (level message : string) (details : option (gmap string json))
| GetStats
| GetRecentLogs (limit : Z)
| GetErrorDetails (limit : Z)
| ResetStats (now : string).

(** What a call returns. *)
Inductive answer : Type :=
| NoAnswer
| StatsAnswer (s : stats)
| LogsAnswer (logs : list log_entry)
| ErrorsAnswer (errors : list error_detail).

Definition call (op : operation) : co answer :=
  match op with
  | RecordRequest now format_2f key status_code response_time response_length
                  min_length error_msg =>
      record_request now format_2f key status_code response_time response_length
                     min_length error_msg;;
      Done NoAnswer
  | AddLog now level message details =>
      add_log now level message details;; Done NoAnswer
  | GetStats => s ← get_stats; Done (StatsAnswer s)
  | GetRecentLogs limit => l ← get_recent_logs limit; Done (LogsAnswer l)
  | GetErrorDetails limit => l ← get_error_details limit; Done (ErrorsAnswer l)
  | ResetStats now => reset_stats now;; Done NoAnswer
  end.

(** The monitor shared by the tasks of the event loop. *)
Record system : Type := System {
  mon : monitor;
  lock_held : bool;
  running : list (co answer)
}.

(** The event loop either starts a task for a new call or lets one of the
    running tasks take a step. *)
Inductive sys_step : system → system → Prop :=
| step_call (s : system) (op : operation) :
    sys_step s (System (mon s) (lock_held s) (running s ++ [call op]))
| step_task (s : system) (i : nat) (c c' : co answer) (m' : monitor) (locked' : bool) :
    running s !! i = Some c →
    step (mon s) (lock_held s) c = Some (m', locked', c') →
    sys_step s (System m' locked' (<[i := c']> (running s))).

(** The capacities hold. *)
Definition within_capacity (m : monitor) : Prop :=
  length (recent_logs m) ≤ max_log_entries m ∧
  length (error_details m) ≤ 100 ∧
  length (response_times m) ≤ 100.

(** Every update a coroutine still has to make keeps [P]. *)
Inductive keeps (P : monitor → Prop) {A} : co A → Prop :=
| keeps_done a : keeps P (Done a)
| keeps_acquire k : keeps P k → keeps P (Acquire k)
| keeps_release k : keeps P k → keeps P (Release k)
| keeps_update f k : (∀ m, P m → P (f m)) → keeps P k → keeps P (Update f k)
| keeps_read k : (∀ m, keeps P (k m)) → keeps P (Read k).

(* ===================================================================== *)
(** * Vocabulary of the statements *)
(* ===================================================================== *)

(** A computation that raises, if at all, an exception derived from
    [Exception] (so not a cancellation). *)
Definition ordinary {A} (m : py A) : Prop :=
  match m with
  | Return _ => True
  | Raise e => is_Exception e = true
  end.

(** [200 <= status <= 299] *)
Definition is_success (status : Z) : Prop := (200 ≤ status ≤ 299)%Z.

(** The candidate a completed task contributes to [valid_responses]:
    [None] when its result fails the tests of the loop. *)
Definition candidate_of (min_length : Z) (t : task) : py (option candidate) :=
  result ← outcome t; head <$> consider min_length [] result.

(** Among the candidates of the tasks, taken in arrival order, [best] comes
    from position [i], no candidate is longer, and none of the same length
    arrived before it. *)
Definition longest_earliest (min_length : Z) (arrivals : list task) (i : nat)
    (best : candidate) : Prop :=
  (∃ t, arrivals !! i = Some t ∧ candidate_of min_length t = Return (Some best))
  ∧ ∀ j u c, arrivals !! j = Some u → candidate_of min_length u = Return (Some c) →
      token_count c ≤ token_count best ∧ (token_count c = token_count best → i ≤ j).

(** The bearer token as the handler reads it off the [Authorization]
    header: the second space-separated field of a header that starts with
    ["Bearer "]; [None] when the header is missing or does not start so. *)
Definition bearer_token (api_key_header : option string) : option string :=
  match api_key_header with
  | Some header => if String.prefix "Bearer " header then split " "%char header !! 1 else None
  | None => None
  end.

(** A completion object as the upstream returns it, with the given text. *)
Definition completion (content : string) : json :=
  JObj {[ "choices" := JArr [
            JObj {[ "index" := JInt 0;
                    "message" := JObj {[ "role" := JStr "assistant";
                                         "content" := JStr content ]};
                    "finish_reason" := JStr "stop" ]} ] ]}.

(** Sample runs: three calls, of which one fails and two give valid
    answers; two calls with nothing valid; a quick short answer followed
    much later by a longer one. *)
Definition sample_tasks : list task :=
  [ Task "key-1" 3 (Return (Some (completion "short answer")));
    Task "key-2" 1 (Return None);
    Task "key-3" 2 (Return (Some (completion "a much longer answer"))) ].

Definition sample_failures : list task :=
  [ Task "key-1" 1 (Return None);
    Task "key-2" 2 (Return (Some (completion "tiny"))) ].

Definition early_and_late : list task :=
  [ Task "key-1" 1 (Return (Some (completion "short answer")));
    Task "key-2" 100 (Return (Some (completion "a much longer answer"))) ].

Definition sample_config : config :=
  Config "123" 300 120 ["AIzaSy-credential-A"] ["AIzaSy-credential-B"] "https://upstream".

(** The monitor was created with [capacity] as [max_log_entries] and its
    three buffers are within their capacities. *)
Definition bounded (capacity : nat) (m : monitor) : Prop :=
  max_log_entries m = capacity ∧ within_capacity m.

(** A fresh monitor, its lock free, no call running. *)
Definition fresh_system (capacity : nat) (now : string) : system :=
  System (RequestMonitor capacity now) false [].

(** [n] times the letter [a]. *)
Definition text_of_length (n : nat) : string :=
  String.string_of_list_ascii (replicate n "a"%char).

(** A network on which every call fails, and one on which every call is
    answered 200 with the body ["BODY"]; a parser that reads that body as a
    completion whose content has twelve characters. *)
Definition dead_net : nat → upstream_call → nat * post_result :=
  λ _ _, (1, PostRaises).

Definition answering_net : nat → upstream_call → nat * post_result :=
  λ i _, (S i, Response 200 "BODY").

Definition sample_loads (s : string) : option json :=
  if String.eqb s "BODY" then Some (completion "short answer") else None.

(** [json.loads] on the one body ["{}"], the empty object. *)
Definition loads_empty_object (s : string) : option json :=
  if String.eqb s "{}" then Some (JObj ∅) else None.

(** [result["choices"][0].get("message", {}).get("content", "")] *)
Definition message_content (result : json) : py json :=
  choices ← py_getitem result "choices";
  first ← py_index choices 0;
  message ← py_get first "message" (JObj ∅);
  py_get message "content" (JStr "").

(** What a task adds to [valid_responses] in the first loop: its
    candidate, or nothing when awaiting it raises the cancellation the
    loop passes over. *)
Definition contributes (min_length : Z) (t : task) (o : option candidate) : Prop :=
  candidate_of min_length t = Return o ∨ (outcome t = Raise CancelledError ∧ o = None).

(** The group whose turn it is, as the configuration file has it. *)
Definition group_in_turn (w : world) : list string :=
  if bool_decide (current_group_index w = 0%Z) then group1 (disk w) else group2 (disk w).

(** A computation that raises, if at all, an exception derived from
    [Exception] other than [HTTPException]. *)
Definition plain {A} (m : py A) : Prop :=
  match m with
  | Return _ => True
  | Raise e => is_Exception e = true ∧ is_HTTPException e = false
  end.

(** A configuration whose first group has one key and whose minimum
    length is 5. *)
Definition answering_config : config :=
  Config "123" 5 120 ["AIzaSy-credential-A"] [] "https://upstream".

(** What one event of an upstream event stream carries for the loop of
    [send_single_request]: the text of its delta, if the delta has one,
    and the identifier, model and creation time, where present. *)
Record delta_event : Type := DeltaEvent {
  ev_text : option string;
  ev_id : option json;
  ev_model : option json;
  ev_created : option json
}.

(** The parsed payload [data] is an object with a non-empty list of
    choices whose first element is an object carrying [ev]. *)
Definition carries (data : json) (ev : delta_event) : Prop :=
  ∃ (m first d : gmap string json) (rest : list json),
    data = JObj m
    ∧ m !! "choices" = Some (JArr (JObj first :: rest))
    ∧ default (JObj ∅) (first !! "delta") = JObj d
    ∧ d !! "content" = JStr <$> ev_text ev
    ∧ m !! "id" = ev_id ev
    ∧ m !! "model" = ev_model ev
    ∧ m !! "created" = ev_created ev.

(** A line of the body read as an event, or as nothing: a line that is no
    data line, a payload that is not JSON (such as the sentinel
    [[DONE]]), the string ["[DONE]"], an object without choices. *)
Definition reads_as (loads : string → option json) (line : string)
    (o : option delta_event) : Prop :=
  match o with
  | Some ev =>
      String.prefix "data: " line = true
      ∧ ∃ data, loads (str_drop 6 line) = Some data ∧ carries data ev
  | None =>
      String.prefix "data: " line = false
      ∨ loads (str_drop 6 line) = None
      ∨ loads (str_drop 6 line) = Some (JStr "[DONE]")
      ∨ ∃ m, loads (str_drop 6 line) = Some (JObj m)
             ∧ (m !! "choices" = None
                ∨ ∃ c, m !! "choices" = Some c ∧ truthy c = false)
  end.

(** The variables of the loop after an event. *)
Definition absorb (st : sse_state) (ev : delta_event) : sse_state :=
  SseState (sse_content st +:+ default "" (ev_text ev))
           (default (final_id st) (ev_id ev))
           (default (final_model st) (ev_model ev))
           (default (final_created st) (ev_created ev)).

(** The values of a field in the events that have it, in order. *)
Definition seen {A} (field : delta_event → option A) (evs : list delta_event) : list A :=
  omap field evs.

(** A two-event stream with its sentinel, and a parser for its payloads. *)
Definition sample_stream : string :=
  "data: one" +:+ String "010" ("data: two" +:+ String "010" ("data: [DONE]" +:+ String "010" "")).

Definition sample_stream_loads (s : string) : option json :=
  if String.eqb s "one" then
    Some (JObj {[ "id" := JStr "first";
                  "choices" := JArr [JObj {[ "delta" := JObj {[ "content" := JStr "Hel" ]} ]}] ]})
  else if String.eqb s "two" then
    Some (JObj {[ "id" := JStr "second";
                  "choices" := JArr [JObj {[ "delta" := JObj {[ "content" := JStr "lo" ]} ]}] ]})
  else None.

(* ===================================================================== *)
(** * The start/stop endpoints ([start_api_server], [stop_api_server],
      [get_server_status]) *)
(* ===================================================================== *)

(** The endpoints read and write the global [is_api_server_running],
    which is [True] when the module is loaded. [server_config] is what
    [config_manager.get_server_config()] gives when the endpoint calls it:
    the host and the port, or the exception raised on a configuration
    that lacks an entry or holds a number that does not parse. *)
Definition is_api_server_running_at_load : bool := true.

Definition start_api_server (exn_text : exn → string) (server_config : py (string * Z))
    (is_api_server_running : bool) : py json * bool :=
  if is_api_server_running
  then (Raise (HTTPException 400 "服务器已在运行中"), is_api_server_running)
  else
    (try_except
       (config ← server_config;
        Return (JObj {[ "success" := JBool true;
                        "url" := JStr ("http://" +:+ config.1 +:+ ":" +:+ pretty config.2) ]}))
       is_Exception
       (λ e, Raise (HTTPException 500 (exn_text e))),
     true).

Definition stop_api_server (is_api_server_running : bool) : py json * bool :=
  if negb is_api_server_running
  then (Raise (HTTPException 400 "服务器未运行"), is_api_server_running)
  else (Return (JObj {[ "success" := JBool true ]}), false).

Definition get_server_status (is_api_server_running : bool) : json :=
  JObj {[ "is_running" := JBool is_api_server_running ]}.

(** A request to one of the three endpoints; a start request comes with
    what the configuration gives while it is served. *)
Inductive admin_request : Type :=
| PostStart (server_config : py (string * Z))
| PostStop
| GetStatus.

Definition admin_step (exn_text : exn → string) (request : admin_request)
    (is_api_server_running : bool) : py json * bool :=
  match request with
  | PostStart server_config => start_api_server exn_text server_config is_api_server_running
  | PostStop => stop_api_server is_api_server_running
  | GetStatus => (Return (get_server_status is_api_server_running), is_api_server_running)
  end.

(** Requests served one after the other: each request with its reply,
    and the flag at the end. *)
Fixpoint admin_run (exn_text : exn → string) (requests : list admin_request)
    (is_api_server_running : bool) : list (admin_request * py json) * bool :=
  match requests with
  | [] => ([], is_api_server_running)
  | request :: requests' =>
      let '(answer, running) := admin_step exn_text request is_api_server_running in
      let '(answers, running') := admin_run exn_text requests' running in
      ((request, answer) :: answers, running')
  end.

(** The reply is the error 400. *)
Definition refused (reply : py json) : bool :=
  match reply with
  | Raise (HTTPException status _) => (status =? 400)%Z
  | _ => false
  end.

Definition is_stop (request : admin_request) : bool :=
  match request with
  | PostStop => true
  | _ => false
  end.

(** The start and stop requests that were not refused with 400. *)
Definition effective (answers : list (admin_request * py json)) : list admin_request :=
  omap (λ ra : admin_request * py json,
          match ra.1 with
          | GetStatus => None
          | _ => if refused ra.2 then None else Some ra.1
          end) answers.

(* ===================================================================== *)
(** * The module-level wrappers of [monitor.py] *)
(* ===================================================================== *)

(** [get_monitor_stats()] *)
Definition get_monitor_stats : co stats := get_stats.

(** [get_monitor_logs(limit)]: the two reads take the lock one after the
    other. *)
Definition get_monitor_logs (limit : Z) : co (list log_entry * list error_detail) :=
  logs ← get_recent_logs limit;
  errors ← get_error_details 20;
  Done (logs, errors).

(** [reset_monitor_stats()] *)
Definition reset_monitor_stats (now : string) : co json :=
  reset_stats now;;
  Done (JObj {[ "success" := JBool true; "message" := JStr "监控统计已重置" ]}).

(* ===================================================================== *)
(** * Vocabulary for the lock *)
(* ===================================================================== *)

(** A coroutine that has returned or stands at an [async with
    self._lock]. *)
Definition at_rest {A} (c : co A) : bool :=
  match c with
  | Done _ | Acquire _ => true
  | _ => false
  end.

(** No request has been recorded: the counters are zero, the tables and
    the two buffers written by [record_request] are empty. *)
Definition untouched (m : monitor) : Prop :=
  total_requests m = 0 ∧ successful_requests m = 0 ∧ failed_requests m = 0
  ∧ truncated_responses m = 0 ∧ status_codes m = ∅ ∧ api_key_usage m = ∅
  ∧ api_key_failures m = ∅ ∧ response_times m = [] ∧ error_details m = [].

(** At most one request has been recorded. *)
Definition at_most_one_request (m : monitor) : Prop :=
  total_requests m ≤ 1
  ∧ successful_requests m + failed_requests m ≤ total_requests m
  ∧ truncated_responses m ≤ successful_requests m
  ∧ length (response_times m) ≤ 1
  ∧ length (error_details m) ≤ 1.

Definition within (P Q : monitor → Prop) : Prop := ∀ m, P m → Q m.

(** The rest of a critical section that records no request and ends by
    releasing the lock and returning. *)
Inductive releasing {A} : co A → Prop :=
| releasing_release a : releasing (Release (Done a))
| releasing_update f k :
    within untouched (λ m, untouched (f m)) → releasing k → releasing (Update f k)
| releasing_read k : (∀ m, releasing (k m)) → releasing (Read k).

(** The rest of a critical section that, from a monitor satisfying [P],
    records at most one request and then asks for the lock again without
    having released it. *)
Inductive doomed {A} : (monitor → Prop) → co A → Prop :=
| doomed_wait P k : within P at_most_one_request → doomed P (Acquire k)
| doomed_update P f k :
    within P at_most_one_request →
    doomed (λ m', ∃ m, P m ∧ m' = f m) k → doomed P (Update f k)
| doomed_read P k :
    within P at_most_one_request → (∀ m, doomed P (k m)) → doomed P (Read k).

(** A task outside the critical sections: returned, or about to enter
    one of the two kinds. *)
Definition resting {A} (c : co A) : Prop :=
  match c with
  | Done _ => True
  | Acquire k => releasing k ∨ doomed untouched k
  | _ => False
  end.

(** The lock and the tasks agree: with the lock free every task rests
    and no request is recorded; with the lock taken one task is inside a
    critical section and the others rest. *)
Definition coherent (s : system) : Prop :=
  if lock_held s then
    ∃ i c, running s !! i = Some c
      ∧ (∀ j c', running s !! j = Some c' → j ≠ i → resting c')
      ∧ ((releasing c ∧ untouched (mon s)) ∨ ∃ P, P (mon s) ∧ doomed P c)
  else
    untouched (mon s) ∧ ∀ j c', running s !! j = Some c' → resting c'.

(** The lock is taken by a task that will ask for it again before
    releasing it. *)
Definition jammed (s : system) : Prop :=
  lock_held s = true
  ∧ ∃ i c P, running s !! i = Some c ∧ P (mon s) ∧ doomed P c
      ∧ ∀ j c', running s !! j = Some c' → j ≠ i → resting c'.

(** The event loop lets task [i] take a step, if it can. *)
Definition advance (i : nat) (s : system) : system :=
  match running s !! i with
  | Some c =>
      match step (mon s) (lock_held s) c with
      | Some (m', locked', c') => System m' locked' (<[i := c']> (running s))
      | None => s
      end
  | None => s
  end.

(** A failed request being recorded on a fresh monitor, the call two
    steps in: it has taken the lock and counted the request. *)
Definition sample_recording : system :=
  advance 0 (advance 0
    (System (RequestMonitor 1000 "t0") false
            [call (RecordRequest "t1" (λ _, "0.50") "AIzaSy-credential-A" 500 0.5%float
                                 0 300 (Some "boom"))])).

(** The same with a call of [get_stats] made afterwards that has tried
    to take the lock. *)
Definition sample_recording_then_stats : system :=
  advance 1 (System (mon sample_recording) (lock_held sample_recording)
                    (running sample_recording ++ [call GetStats])).

(** A completion whose message has the content [null]. *)
Definition null_completion : json :=
  JObj {[ "choices" := JArr [JObj {[ "message" := JObj {[ "content" := JNull ]} ]}] ]}.

(** The tasks with their launch positions (counted from [n]), in the
    order they complete: [as_completed] with the positions carried
    along. *)
Fixpoint insert_launched (x : nat * task) (sorted : list (nat * task))
  : list (nat * task) :=
  match sorted with
  | [] => [x]
  | y :: sorted' =>
      if finish_at x.2 <=? finish_at y.2 then x :: sorted
      else y :: insert_launched x sorted'
  end.

Fixpoint launched (n : nat) (tasks : list task) : list (nat * task) :=
  match tasks with
  | [] => []
  | t :: tasks' => insert_launched (n, t) (launched (S n) tasks')
  end.

(** [x] completes before [y], or at the same instant and was launched
    before it. *)
Definition arrives_before (x y : nat * task) : Prop :=
  finish_at x.2 < finish_at y.2 ∨ (finish_at x.2 = finish_at y.2 ∧ x.1 < y.1).

(** A run in which one call is answered with a [null] content and the
    other fails. *)
Definition sample_null_content : list task :=
  [ Task "key-1" 1 (Return (Some null_completion));
    Task "key-2" 2 (Return None) ].

(** A completion that also holds an infinity, as [json.loads] reads the
    literal [Infinity], and a parser that reads the body ["BODY"] as it. *)
Definition completion_with_infinity : json :=
  JObj {[ "choices" := JArr [
            JObj {[ "index" := JInt 0;
                    "message" := JObj {[ "role" := JStr "assistant";
                                         "content" := JStr "short answer" ]};
                    "finish_reason" := JStr "stop" ]} ];
          "score" := JFloat infinity ]}.

Definition loads_infinity (s : string) : option json :=
  if String.eqb s "BODY" then Some completion_with_infinity else None.

(** A completion whose content is a dict, and a parser that reads the
    body ["BODY"] as it. *)
Definition completion_with_dict : json :=
  JObj {[ "choices" := JArr [
            JObj {[ "message" := JObj {[ "content" := JObj {[ "text" := JStr "short answer";
                                                               "kind" := JStr "text" ]} ]} ]} ] ]}.

Definition loads_dict (s : string) : option json :=
  if String.eqb s "BODY" then Some completion_with_dict else None.

(** A configuration whose first group has one key and whose minimum
    length is 2. *)
Definition lenient_config : config :=
  Config "123" 2 120 ["AIzaSy-credential-A"] [] "https://upstream".

(* ===================================================================== *)
(** * Properties *)
(* ===================================================================== *)

(** ** Key rotation *)

Lemma get_current_api_keys_index (w : world) :
  current_group_index (world_after (get_current_api_keys w)) =
  if bool_decide (current_group_index w = 0%Z) then 1%Z else 0%Z.
Proof.
  unfold get_current_api_keys, force_reload_config; simpl.
  case_bool_decide as Hz.
  - rewrite Hz. reflexivity.
  - destruct (Z.eqb_spec (current_group_index w) 0); [contradiction | reflexivity].
Qed.

Lemma get_current_api_keys_group (w : world) :
  logged_group (get_current_api_keys w) =
  if bool_decide (current_group_index w = 0%Z) then "group1" else "group2".
Proof.
  unfold get_current_api_keys, force_reload_config; simpl.
  case_bool_decide as Hz.
  - rewrite Hz. reflexivity.
  - destruct (Z.eqb_spec (current_group_index w) 0); [contradiction | reflexivity].
Qed.

(** The keys handed out are the valid keys of the logged group, read from
    the configuration file as it is at the time of the call. *)
Lemma get_current_api_keys_keys (w : world) :
  valid_keys (get_current_api_keys w) =
  List.filter valid_key
    (if bool_decide (current_group_index w = 0%Z) then group1 (disk w) else group2 (disk w)).
Proof.
  unfold get_current_api_keys, force_reload_config; simpl.
  case_bool_decide as Hz.
  - rewrite Hz. reflexivity.
  - destruct (Z.eqb_spec (current_group_index w) 0); [contradiction | reflexivity].
Qed.

(** C4. Under sequential calls the rotator alternates strictly between the
    two groups: the calls numbered 1, 3, 5, ... (positions 0, 2, 4, ... of
    [rotate]) all use one group and the calls numbered 2, 4, 6, ... the
    other one, whatever edits the configuration file receives in between;
    no group is skipped or used twice in a row. From the start value
    [current_group_index = 0] the odd-numbered calls use [group1]. The
    keys handed out are the valid keys of that group in the file as it is
    at the time of the call. *)
Theorem rotation_alternates (edits : list config) (w : world) (k : nat) (sel : selection) :
  rotate edits w !! k = Some sel →
  ∃ c, edits !! k = Some c ∧
    if (if bool_decide (current_group_index w = 0%Z) then Nat.even k else Nat.odd k)
    then logged_group sel = "group1" ∧ valid_keys sel = List.filter valid_key (group1 c)
    else logged_group sel = "group2" ∧ valid_keys sel = List.filter valid_key (group2 c).
Proof.
  revert w k. induction edits as [|c edits IH]; intros w k Hk; [done|].
  destruct k as [|k]; simpl in Hk.
  - injection Hk as <-. exists c. split; [done|].
    rewrite get_current_api_keys_group, get_current_api_keys_keys. simpl.
    by case_bool_decide.
  - apply IH in Hk as (c' & Hc' & Hk). exists c'. split; [done|].
    rewrite get_current_api_keys_index in Hk. simpl in Hk.
    rewrite Nat.even_succ, Nat.odd_succ.
    rewrite <- Nat.negb_odd in Hk |- *.
    destruct (bool_decide (current_group_index w = 0%Z)); simpl in Hk |- *;
      by destruct (Nat.odd k).
Qed.

Lemma rotation_alternates_witness :
  rotate [sample_config; sample_config] (World 0 sample_config sample_config) !! 1
  = Some (Selection ["AIzaSy-credential-B"] "group2" (World 0 sample_config sample_config))
  ∧ ∃ c, [sample_config; sample_config] !! 1 = Some c ∧
      "group2" = "group2" ∧ ["AIzaSy-credential-B"] = List.filter valid_key (group2 c).
Proof.
  split; [reflexivity|].
  exact (rotation_alternates [sample_config; sample_config]
           (World 0 sample_config sample_config) 1
           (Selection ["AIzaSy-credential-B"] "group2" (World 0 sample_config sample_config))
           eq_refl).
Defined.

(** Four calls in a row from the start of the process. *)
Example rotation_of_four_calls :
  logged_group <$> rotate [sample_config; sample_config; sample_config; sample_config]
                          (World 0 sample_config sample_config)
  = ["group1"; "group2"; "group1"; "group2"].
Proof. reflexivity. Qed.

(** ** The body forwarded upstream *)



(** ** Pseudo-streaming *)

Lemma substring_zero (i : nat) (s : string) : String.substring i 0 s = "".
Proof.
  revert i. induction s as [|c s IH]; intros [|i]; simpl; auto.
Qed.

Lemma substring_append (s : string) (i a b : nat) :
  String.substring i a s +:+ String.substring (i + a) b s = String.substring i (a + b) s.
Proof.
  revert i a. induction s as [|c s IH]; intros i a.
  - destruct i, a, b; reflexivity.
  - destruct i as [|i]; simpl.
    + destruct a as [|a]; simpl; [reflexivity|].
      change (String c (String.substring 0 a s +:+ String.substring a b s)
              = String c (String.substring 0 (a + b) s)).
      f_equal. apply (IH 0).
    + apply IH.
Qed.

Lemma substring_truncated (s : string) (i m : nat) :
  String.length s - i ≤ m →
  String.substring i m s = String.substring i (String.length s - i) s.
Proof.
  revert i m. induction s as [|c s IH]; intros i m Hm.
  - destruct i, m; reflexivity.
  - destruct i as [|i]; simpl in *.
    + destruct m as [|m]; [lia|]. f_equal.
      rewrite (IH 0 m) by lia. f_equal. lia.
    + apply IH. lia.
Qed.

Lemma substring_whole (s : string) : String.substring 0 (String.length s) s = s.
Proof. induction s as [|c s IH]; simpl; [reflexivity | by rewrite IH]. Qed.

(** The slices taken at the starts [range(i, n, step)] put end to end are
    the text from [i] on. *)
Lemma join_slices (s : string) (step fuel i : nat) :
  1 ≤ step → String.length s - i ≤ fuel →
  join ((λ j, String.substring j step s) <$> range_from fuel i (String.length s) step)
  = String.substring i (String.length s - i) s.
Proof.
  intros Hstep. revert i. induction fuel as [|fuel IH]; intros i Hfuel; simpl.
  - replace (String.length s - i) with 0 by lia. by rewrite substring_zero.
  - destruct (Nat.ltb_spec i (String.length s)) as [Hlt|Hge]; simpl.
    + rewrite IH by lia. rewrite substring_append.
      destruct (Nat.le_gt_cases (i + step) (String.length s)) as [Hle|Hgt].
      * f_equal. lia.
      * replace (String.length s - (i + step)) with 0 by lia.
        rewrite Nat.add_0_r. apply substring_truncated. lia.
    + replace (String.length s - i) with 0 by lia. by rewrite substring_zero.
Qed.

Lemma emit_chunks_str (response_id created_time model_name : json) (s : string)
    (chunk_size : nat) (starts : list nat) :
  emit_chunks response_id created_time model_name (JStr s) chunk_size starts =
  StreamingResponse
    (((λ i, SSEData (chunk_data response_id created_time model_name
                                (JStr (String.substring i chunk_size s)))) <$> starts)
     ++ [SSEData (final_data response_id created_time model_name); SSEDone])
    None.
Proof.
  induction starts as [|i starts IH]; simpl; [reflexivity|]. by rewrite IH.
Qed.

Lemma delta_content_chunk (response_id created_time model_name chunk : json) :
  delta_content (SSEData (chunk_data response_id created_time model_name chunk)) = Some chunk.
Proof. reflexivity. Qed.

Lemma delta_content_final (response_id created_time model_name : json) :
  delta_content (SSEData (final_data response_id created_time model_name)) = None.
Proof. reflexivity. Qed.

(** C5. For a winning content string the emitter yields the content cut
    into chunks, each in a chunk event; the contents of the chunk events
    put end to end, in emission order, are the original content; then come
    one chunk with an empty delta and finish reason ["stop"], and last the
    sentinel [data: [DONE]]. The generator does not raise. *)
Theorem stream_round_trip (now : Z) (result : gmap string json) (content : string) :
  ∃ (response_id created_time model_name : json) (chunks : list string),
    stream_response_content now (JObj result) (JStr content) =
      Return (StreamingResponse
                (((λ c, SSEData (chunk_data response_id created_time model_name (JStr c)))
                    <$> chunks)
                 ++ [SSEData (final_data response_id created_time model_name); SSEDone])
                None)
    ∧ join chunks = content
    ∧ omap delta_content
        (((λ c, SSEData (chunk_data response_id created_time model_name (JStr c)))
            <$> chunks)
         ++ [SSEData (final_data response_id created_time model_name); SSEDone])
      = JStr <$> chunks
    ∧ (∀ c, delta_content (SSEData (chunk_data response_id created_time model_name (JStr c)))
            = Some (JStr c))
    ∧ delta_content (SSEData (final_data response_id created_time model_name)) = None
    ∧ (choices ← py_getitem (final_data response_id created_time model_name) "choices";
       first ← py_index choices 0;
       delta ← py_getitem first "delta";
       reason ← py_getitem first "finish_reason";
       Return (delta, reason)) = Return (JObj ∅, JStr "stop").
Proof.
  set (n := String.length content).
  set (chunk_size := Nat.max 1 (n / 50)).
  eexists _, _, _, ((λ i, String.substring i chunk_size content) <$> py_range n chunk_size).
  split; [|split; [|split; [|split; [|split]]]].
  - unfold stream_response_content, generate_stream; simpl.
    rewrite emit_chunks_str. fold n chunk_size.
    rewrite <- list_fmap_compose. reflexivity.
  - unfold py_range, n. rewrite join_slices by (unfold chunk_size; lia).
    rewrite Nat.sub_0_r. apply substring_whole.
  - generalize ((λ i, String.substring i chunk_size content) <$> py_range n chunk_size).
    intros chunks. induction chunks as [|c chunks IH]; [reflexivity|].
    cbn -[delta_content chunk_data final_data] in *.
    rewrite delta_content_chunk. by rewrite IH.
  - intros c. apply delta_content_chunk.
  - apply delta_content_final.
  - reflexivity.
Qed.

(** ** One upstream call *)

Lemma ordinary_bind {A B} (m : py A) (f : A → py B) :
  ordinary m → (∀ a, ordinary (f a)) → ordinary (m ≫= f).
Proof. destruct m; simpl; auto. Qed.

Lemma ordinary_fmap {A B} (m : py A) (f : A → B) : ordinary m → ordinary (f <$> m).
Proof. destruct m; simpl; auto. Qed.

Lemma ordinary_try_except {A} (body : py A) cls handler :
  ordinary body → (∀ e, ordinary (handler e)) → ordinary (try_except body cls handler).
Proof.
  destruct body as [a|e]; simpl; [done|]. intros He Hh. destruct (cls e); auto.
Qed.

Lemma ordinary_py_in k j : ordinary (py_in k j).
Proof. by destruct j. Qed.

Lemma ordinary_py_getitem j k : ordinary (py_getitem j k).
Proof. destruct j; simpl; try done. by destruct (_ !! _). Qed.

Lemma ordinary_py_index j i : ordinary (py_index j i).
Proof. destruct j; simpl; try done; by case_match. Qed.

Lemma ordinary_py_get j k d : ordinary (py_get j k d).
Proof. by destruct j. Qed.

Lemma ordinary_py_len j : ordinary (py_len j).
Proof. by destruct j. Qed.

Lemma ordinary_py_str_add s j : ordinary (py_str_add s j).
Proof. by destruct j. Qed.

Lemma ordinary_json_loads loads s : ordinary (json_loads loads s).
Proof. unfold json_loads. by destruct (loads s). Qed.

Lemma ordinary_raise_for_status status : ordinary (raise_for_status status).
Proof. unfold raise_for_status. by case_match. Qed.

Create HintDb ordinary.
#[local] Hint Resolve ordinary_py_in ordinary_py_getitem ordinary_py_index ordinary_py_get
  ordinary_py_len ordinary_py_str_add ordinary_json_loads ordinary_raise_for_status
  ordinary_bind ordinary_fmap ordinary_try_except : ordinary.
#[local] Hint Extern 0 (ordinary (Return _)) => exact I : ordinary.
#[local] Hint Extern 2 (ordinary (if ?b then _ else _)) => destruct b : ordinary.

Lemma ordinary_take_field data k var : ordinary (take_field data k var).
Proof. unfold take_field. eauto with ordinary. Qed.

Lemma ordinary_sse_line loads st line : ordinary (sse_line loads st line).
Proof.
  pose proof ordinary_take_field. unfold sse_line. eauto 40 with ordinary.
Qed.

Lemma ordinary_sse_lines loads st lines : ordinary (sse_lines loads st lines).
Proof.
  revert st. induction lines as [|line lines IH]; intros st; simpl; [done|].
  apply ordinary_bind; [apply ordinary_sse_line | auto].
Qed.

Lemma response_json_loads loads text : response_json loads text = Return (loads text).
Proof. unfold response_json, json_loads. by destruct (loads text). Qed.

Lemma ordinary_handle_response loads now status text :
  ordinary (handle_response loads now status text).
Proof.
  unfold handle_response. rewrite response_json_loads.
  pose proof ordinary_sse_lines. eauto 10 with ordinary.
Qed.

Lemma raise_for_status_success status :
  is_success status → raise_for_status status = Return ().
Proof.
  intros [H1 H2]. unfold raise_for_status.
  destruct (Z.leb_spec 200 status), (Z.leb_spec status 299); simpl; done || lia.
Qed.

Lemma raise_for_status_failure status :
  ¬ is_success status → raise_for_status status = Raise HTTPStatusError.
Proof.
  intros H. unfold raise_for_status, is_success in *.
  destruct (Z.leb_spec 200 status), (Z.leb_spec status 299); simpl; done || lia.
Qed.

(** What the call returns, by the way [client.post] ends. *)
Lemma send_single_request_unfold loads now (cfg : config) client key request_data :
  send_single_request loads now cfg client key request_data =
  match client (prepare_call cfg key request_data) with
  | PostRaises => Return None
  | Response status text =>
      match handle_response loads now status text with
      | Return r => Return r
      | Raise _ => Return None
      end
  end.
Proof.
  unfold send_single_request, prepare_call. simpl.
  destruct (client _) as [|status text]; [reflexivity|].
  pose proof (ordinary_handle_response loads now status text) as Hord.
  destruct (handle_response loads now status text) as [r|e]; simpl in *; [done|].
  rewrite Hord. by destruct (is_RequestError e).
Qed.

(** C6, as the code has it. On a configuration that holds the base URL a
    single upstream call never raises past its boundary: it always returns
    a value. Every failure (the configuration giving no timeout, the
    transport raising, a status outside 2xx, a body that is neither an
    event stream nor parsable JSON, any other exception met while reading
    the body) is mapped to the bare [None], which carries neither the
    credential nor a diagnostic. Any other outcome is the completion
    object built from the state in which the loop over the lines of an
    event stream ends, when that state has a non-empty content, or else
    the parsed JSON body handed on unchanged, whatever its shape. Without
    the base URL the [KeyError] met while the URL is built, before the
    [try], leaves the function. *)
Theorem send_single_request_result (loads : string → option json) (now : Z)
    (cfg : config_reads) (client : upstream_call → post_result) (key : string)
    (request_data : gmap string json) :
  (get_base_url cfg = None →
   send_single_request loads now cfg client key request_data = Raise KeyError)
  ∧ ∀ base, get_base_url cfg = Some base →
      ∃ r : option json,
        send_single_request loads now cfg client key request_data = Return r
        ∧ (get_request_timeout cfg = None → r = None)
        ∧ ∀ timeout, get_request_timeout cfg = Some timeout →
            let call := UpstreamCall (base +:+ "/openai/chat/completions")
                                     ("Bearer " +:+ key) "application/json"
                                     (clean_request_data request_data) timeout in
            (client call = PostRaises → r = None)
            ∧ ∀ status text, client call = Response status text →
                (¬ is_success status → r = None)
                ∧ (is_success status → str_contains "data:" text = false →
                   r = loads text)
                ∧ (is_success status → str_contains "data:" text = true →
                   match sse_lines loads (SseState "" (JStr "") (JStr "") (JInt now))
                                   (split "010"%char (strip text)) with
                   | Return st =>
                       r = if String.eqb (sse_content st) "" then loads text
                           else Some (completion_of now st)
                   | Raise _ => r = None
                   end).
Proof.
  unfold send_single_request. split.
  { by intros ->. }
  intros base ->. cbn [mbind py_bind].
  destruct (get_request_timeout cfg) as [timeout|].
  2:{ exists None. split; [done|]. split; [done|]. intros ? [=]. }
  cbn [mbind py_bind].
  destruct (client _) as [|status text] eqn:Hclient.
  { exists None. split; [done|]. split; [by intros [=]|].
    intros ? [= <-]. simpl. rewrite Hclient. split; [done|]. intros ?? [=]. }
  pose proof (ordinary_handle_response loads now status text) as Hord.
  assert (∃ r, try_except (handle_response loads now status text) is_Exception
                 (λ e, if is_RequestError e then Return None else Return None) = Return r
               ∧ (¬ is_success status → r = None)
               ∧ (is_success status → str_contains "data:" text = false → r = loads text)
               ∧ (is_success status → str_contains "data:" text = true →
                  match sse_lines loads (SseState "" (JStr "") (JStr "") (JInt now))
                                  (split "010"%char (strip text)) with
                  | Return st =>
                      r = if String.eqb (sse_content st) "" then loads text
                          else Some (completion_of now st)
                  | Raise _ => r = None
                  end)) as (r & Hr & Hfail & Hjson & Hsse).
  { unfold handle_response in *. rewrite response_json_loads in *.
    destruct (decide (is_success status)) as [Hs|Hs].
    2:{ rewrite raise_for_status_failure by done. exists None. by repeat split. }
    rewrite raise_for_status_success in * by done. cbn [mbind py_bind] in *.
    destruct (str_contains "data:" text).
    - destruct (sse_lines _ _ _) as [st|e]; cbn [mbind py_bind] in *.
      + destruct (String.eqb (sse_content st) ""); simpl; eexists; by repeat split.
      + simpl in *. rewrite Hord. exists None. split; [by destruct (is_RequestError e)|].
        by repeat split.
    - eexists. by repeat split. }
  exists r. split; [done|]. split; [by intros [=]|].
  intros ? [= <-]. simpl. rewrite Hclient. split; [by intros [=]|].
  by intros ?? [= <- <-].
Qed.

(** The failure value is the same whatever the credential: at two
    different keys a failing transport gives [None] both times, so no
    reading of the returned value recovers the credential. An outcome
    that is no failure need not be a completion: a 200 answer whose body
    is the empty JSON object is returned as it is. And the call does
    raise past its boundary on a configuration without base URL. *)
Lemma failure_carries_no_credential :
  send_single_request (λ _, None) 0 sample_config
                      (λ _, PostRaises) "AIzaSy-credential-A" ∅ = Return None
  ∧ send_single_request (λ _, None) 0 sample_config
                        (λ _, PostRaises) "AIzaSy-credential-B" ∅ = Return None
  ∧ (¬ ∃ identity : py (option json) → string,
        ∀ key,
          identity (send_single_request (λ _, None) 0 sample_config
                      (λ _, PostRaises) key ∅) = key)
  ∧ send_single_request loads_empty_object 0 sample_config
                        (λ _, Response 200 "{}") "AIzaSy-credential-A" ∅
    = Return (Some (JObj ∅))
  ∧ send_single_request loads_empty_object 0 (ConfigReads None (Some 120%Z))
                        (λ _, Response 200 "{}") "AIzaSy-credential-A" ∅
    = Raise KeyError.
Proof.
  split; [reflexivity|]. split; [reflexivity|]. split; [|split; reflexivity].
  intros [identity Hid].
  pose proof (Hid "AIzaSy-credential-A") as Ha.
  pose proof (Hid "AIzaSy-credential-B") as Hb.
  rewrite send_single_request_unfold in Ha, Hb. simpl in Ha, Hb.
  rewrite Ha in Hb. discriminate Hb.
Qed.


(** ** Arbitration *)

(** The test of the loops either leaves [valid_responses] as it is, or
    appends one candidate, or raises; which one does not depend on what
    [valid_responses] holds. *)
Lemma consider_append min_length vr result :
  consider min_length vr result =
  (λ o : option candidate, vr ++ option_list o) <$> (head <$> consider min_length [] result).
Proof.
  destruct result as [r|]; simpl; [|by rewrite app_nil_r].
  destruct (if truthy r then _ else _) as [[|]|e]; simpl; try done;
    [|by rewrite app_nil_r].
  destruct (py_getitem r "choices") as [choices|e]; simpl; [|done].
  destruct (py_index choices 0) as [first|e]; simpl; [|done].
  destruct (py_get first "message" (JObj ∅)) as [message|e]; simpl; [|done].
  destruct (py_get message "content" (JStr "")) as [content|e]; simpl; [|done].
  destruct (py_len content) as [n|e]; simpl; [|done].
  destruct (min_length <=? Z.of_nat n)%Z; simpl; [done | by rewrite app_nil_r].
Qed.

(** A candidate records the result it was read from, the content found
    in it and the length of that content, which reaches the minimum. *)
Lemma candidate_of_Some min_length t c :
  candidate_of min_length t = Return (Some c) →
  outcome t = Return (Some (cand_result c))
  ∧ (∃ m, cand_result c = JObj m)
  ∧ py_len (cand_content c) = Return (token_count c)
  ∧ (min_length ≤ Z.of_nat (token_count c))%Z.
Proof.
  unfold candidate_of. destruct (outcome t) as [[r|]|e]; simpl; try done.
  destruct (truthy r); simpl; [|done].
  destruct (py_in "choices" r) as [[|]|e]; simpl; try done.
  destruct (py_getitem r "choices") as [choices|e] eqn:Hch; simpl; [|done].
  destruct (truthy choices); simpl; [|done].
  destruct (py_index choices 0) as [first|e]; simpl; [|done].
  destruct (py_get first "message" (JObj ∅)) as [message|e]; simpl; [|done].
  destruct (py_get message "content" (JStr "")) as [content|e]; simpl; [|done].
  destruct (py_len content) as [n|e] eqn:Hn; simpl; [|done].
  destruct (Z.leb_spec min_length (Z.of_nat n)); simpl; [|done].
  intros [= <-]; simpl. split; [done|]. split; [|done].
  destruct r; try done. eauto.
Qed.

Lemma collect_measured min_length arrivals os :
  Forall2 (λ t o, candidate_of min_length t = Return o) arrivals os →
  ∀ clock vr,
    collect min_length clock vr arrivals =
    Return (foldl (λ c t, Nat.max c (finish_at t)) clock arrivals, vr ++ omap id os).
Proof.
  induction 1 as [|t o arrivals os Ht _ IH]; intros clock vr.
  { simpl. by rewrite app_nil_r. }
  unfold candidate_of in Ht. cbn [collect foldl].
  destruct (outcome t) as [result|e]; [|done].
  cbn [mbind py_bind] in *. rewrite consider_append.
  destruct (consider min_length [] result) as [cs|e]; [|done].
  injection Ht as <-. simpl. rewrite IH. do 2 f_equal.
  destruct (head cs); simpl; [by rewrite <- app_assoc | by rewrite app_nil_r].
Qed.

Lemma insert_by_finish_perm t sorted : insert_by_finish t sorted ≡ₚ t :: sorted.
Proof.
  induction sorted as [|u sorted IH]; simpl; [done|].
  destruct (finish_at t <=? finish_at u); [done|].
  rewrite IH. apply Permutation_swap.
Qed.

(** [as_completed] yields every task once. *)
Lemma as_completed_perm tasks : as_completed tasks ≡ₚ tasks.
Proof.
  induction tasks as [|t tasks IH]; simpl; [done|].
  rewrite insert_by_finish_perm. by rewrite IH.
Qed.

Lemma foldl_max_ge (l : list task) (clock : nat) :
  clock ≤ foldl (λ c t, Nat.max c (finish_at t)) clock l
  ∧ ∀ t, t ∈ l → finish_at t ≤ foldl (λ c t, Nat.max c (finish_at t)) clock l.
Proof.
  revert clock. induction l as [|u l IH]; intros clock; simpl.
  { split; [done|]. intros t Ht. by apply elem_of_nil in Ht. }
  destruct (IH (Nat.max clock (finish_at u))) as [H1 H2].
  split; [lia|]. intros t [->|Ht]%elem_of_cons; [lia | by apply H2].
Qed.

(** When the first loop ends every task is done: nothing remains to wait
    for. *)
Lemma remaining_tasks_empty (tasks : list task) :
  List.filter
    (λ t, negb (done_at (foldl (λ c t, Nat.max c (finish_at t)) 0 (as_completed tasks)) t))
    tasks = [].
Proof.
  set (clock := foldl _ 0 _).
  assert (∀ t, t ∈ tasks → done_at clock t = true) as Hdone.
  { intros t Ht. unfold done_at. apply Nat.leb_le.
    apply foldl_max_ge. by rewrite as_completed_perm. }
  clearbody clock. induction tasks as [|t tasks IH]; simpl; [done|].
  rewrite Hdone by (apply elem_of_cons; by left). simpl.
  apply IH. intros u Hu. apply Hdone. apply elem_of_cons. by right.
Qed.

(** The block as a whole: it ends when the last task completes, with the
    candidates of all tasks in arrival order, and cancels nothing. *)
Lemma gather_measured min_length tasks os :
  Forall2 (λ t o, candidate_of min_length t = Return o) (as_completed tasks) os →
  gather min_length tasks =
  Return (Gathered (omap id os)
                   (foldl (λ c t, Nat.max c (finish_at t)) 0 (as_completed tasks))
                   []).
Proof.
  intros Hos. unfold gather. rewrite (collect_measured _ _ _ Hos). simpl.
  unfold wait_remaining; simpl.
  destruct (omap id os); [done|].
  by rewrite remaining_tasks_empty.
Qed.

(** [max_by] keeps the first of the longest candidates: if [b] is that
    one among [pre], the result is that one among [pre ++ os]. *)
Lemma max_by_omap (os pre : list (option candidate)) (i : nat) (b : candidate) :
  pre !! i = Some (Some b) →
  (∀ j c, pre !! j = Some (Some c) →
     token_count c ≤ token_count b ∧ (token_count c = token_count b → i ≤ j)) →
  ∃ i', (pre ++ os) !! i' = Some (Some (max_by token_count b (omap id os)))
    ∧ ∀ j c, (pre ++ os) !! j = Some (Some c) →
        token_count c ≤ token_count (max_by token_count b (omap id os))
        ∧ (token_count c = token_count (max_by token_count b (omap id os)) → i' ≤ j).
Proof.
  revert pre i b. induction os as [|[x|] os IH]; intros pre i b Hi Hmax.
  - exists i. rewrite app_nil_r. done.
  - simpl. rewrite cons_middle, app_assoc.
    pose proof (lookup_lt_Some _ _ _ Hi) as Hlt.
    destruct (Nat.ltb_spec (token_count b) (token_count x)) as [Hbx|Hbx].
    + apply (IH (pre ++ [Some x]) (length pre) x).
      { by rewrite lookup_app_r, Nat.sub_diag. }
      intros j c Hj. destruct (decide (j < length pre)) as [Hjl|Hjl].
      * rewrite lookup_app_l in Hj by done. apply Hmax in Hj. lia.
      * rewrite lookup_app_r in Hj by lia.
        destruct (j - length pre) as [|[|]] eqn:Hd; simpl in Hj; try done.
        injection Hj as <-. lia.
    + apply (IH (pre ++ [Some x]) i b).
      { by rewrite lookup_app_l. }
      intros j c Hj. destruct (decide (j < length pre)) as [Hjl|Hjl].
      * rewrite lookup_app_l in Hj by done. by apply Hmax.
      * rewrite lookup_app_r in Hj by lia.
        destruct (j - length pre) as [|[|]] eqn:Hd; simpl in Hj; try done.
        injection Hj as <-. lia.
  - simpl. rewrite cons_middle, app_assoc.
    pose proof (lookup_lt_Some _ _ _ Hi) as Hlt.
    apply (IH (pre ++ [None]) i b).
    { by rewrite lookup_app_l. }
    intros j c Hj. destruct (decide (j < length pre)) as [Hjl|Hjl].
    * rewrite lookup_app_l in Hj by done. by apply Hmax.
    * rewrite lookup_app_r in Hj by lia.
      destruct (j - length pre) as [|[|]] eqn:Hd; simpl in Hj; done.
Qed.

Lemma py_max_omap (os : list (option candidate)) :
  match py_max token_count (omap id os) with
  | None => ∀ j c, os !! j ≠ Some (Some c)
  | Some b =>
      ∃ i, os !! i = Some (Some b)
        ∧ ∀ j c, os !! j = Some (Some c) →
            token_count c ≤ token_count b ∧ (token_count c = token_count b → i ≤ j)
  end.
Proof.
  induction os as [|[x|] os IH].
  - intros j c. by rewrite lookup_nil.
  - simpl. destruct (max_by_omap os [Some x] 0 x) as (i & Hi & Hmax); [done| |by exists i].
    intros [|j] c Hj; simpl in Hj; [|done]. injection Hj as <-. lia.
  - change (omap id (None :: os)) with (omap id os).
    destruct (py_max token_count (omap id os)) as [b|].
    + destruct IH as (i & Hi & Hmax). exists (S i). split; [done|].
      intros [|j] c Hj; simpl in Hj; [done|]. apply Hmax in Hj. lia.
    + intros [|j] c; simpl; [done | apply IH].
Qed.

(** Arbitration over responses that can all be measured: either it
    returns the longest valid candidate, the earliest of that length, or
    no task gave a valid candidate and it raises the 503 error. *)
Lemma arbitrate_measured min_length tasks :
  (∀ t, t ∈ tasks → ∃ o, candidate_of min_length t = Return o) →
  (∃ i best, arbitrate min_length tasks = Return best
             ∧ longest_earliest min_length (as_completed tasks) i best)
  ∨ (arbitrate min_length tasks = Raise (HTTPException 503 "所有上游API请求均失败")
     ∧ ∀ t, t ∈ tasks → candidate_of min_length t = Return None).
Proof.
  intros Hall.
  assert (Forall (λ t, ∃ o, candidate_of min_length t = Return o) (as_completed tasks))
    as Hex.
  { apply Forall_forall. intros t Ht. apply Hall. by rewrite <- as_completed_perm. }
  destruct (proj1 (Forall_exists_Forall2_l _ _) Hex) as [os Hos].
  unfold arbitrate. rewrite (gather_measured _ _ _ Hos). simpl.
  pose proof (py_max_omap os) as Hmax.
  destruct (py_max token_count (omap id os)) as [b|].
  - left. destruct Hmax as (i & Hi & Hmax). exists i, b. split; [done|]. split.
    + destruct (Forall2_lookup_r _ _ _ _ _ Hos Hi) as (t & Ht & Hc). eauto.
    + intros j u c Hj Hc.
      destruct (Forall2_lookup_l _ _ _ _ _ Hos Hj) as (o & Ho & Hc').
      apply (Hmax j c). congruence.
  - right. split; [done|]. intros t Ht.
    rewrite <- as_completed_perm in Ht.
    apply list_elem_of_lookup in Ht as [j Hj].
    destruct (Forall2_lookup_l _ _ _ _ _ Hos Hj) as ([c|] & Ho & Hc); [|done].
    by destruct (Hmax j c).
Qed.


(** [as_completed] is a stable sort by completion instant. *)
Lemma insert_launched_snd x sorted :
  (insert_launched x sorted).*2 = insert_by_finish x.2 sorted.*2.
Proof.
  induction sorted as [|y sorted IH]; [done|].
  cbn [insert_launched insert_by_finish fmap list_fmap snd].
  destruct (finish_at x.2 <=? finish_at y.2); [done|].
  rewrite fmap_cons. by f_equal.
Qed.

Lemma launched_snd n tasks : (launched n tasks).*2 = as_completed tasks.
Proof.
  revert n. induction tasks as [|t tasks IH]; intros n; [done|].
  cbn [launched]. by rewrite insert_launched_snd, IH.
Qed.

Lemma elem_of_insert_launched x y sorted :
  x ∈ insert_launched y sorted ↔ x = y ∨ x ∈ sorted.
Proof.
  induction sorted as [|z sorted IH]; simpl.
  - rewrite elem_of_cons, elem_of_nil. tauto.
  - destruct (finish_at y.2 <=? finish_at z.2).
    + by rewrite elem_of_cons.
    + rewrite !elem_of_cons, IH. tauto.
Qed.

Lemma elem_of_launched n tasks k t :
  (k, t) ∈ launched n tasks ↔ n ≤ k ∧ tasks !! (k - n) = Some t.
Proof.
  revert n. induction tasks as [|u tasks IH]; intros n; simpl.
  - rewrite elem_of_nil. split; [done | by intros [_ ?]].
  - rewrite elem_of_insert_launched, IH. split.
    + intros [[= -> ->]|[Hle Hk]].
      * split; [lia|]. by rewrite Nat.sub_diag.
      * split; [lia|]. by replace (k - n) with (S (k - S n)) by lia.
    + intros [Hle Hk]. destruct (decide (k = n)) as [->|Hne].
      * left. rewrite Nat.sub_diag in Hk. simpl in Hk. congruence.
      * right. split; [lia|]. by replace (k - n) with (S (k - S n)) in Hk by lia.
Qed.

Lemma insert_launched_sorted x sorted :
  StronglySorted arrives_before sorted →
  (∀ y, y ∈ sorted → x.1 < y.1) →
  StronglySorted arrives_before (insert_launched x sorted).
Proof.
  induction 1 as [|y sorted Hsorted IH Hy]; intros Hx; simpl.
  { by repeat constructor. }
  assert (x.1 < y.1) as Hxy by (apply Hx, elem_of_cons; by left).
  assert (∀ z, z ∈ sorted → x.1 < z.1) as Hx'
    by (intros z Hz; apply Hx, elem_of_cons; by right).
  rewrite Forall_forall in Hy.
  destruct (Nat.leb_spec (finish_at x.2) (finish_at y.2)) as [Hle|Hlt].
  - constructor; [by constructor; [|apply Forall_forall]|].
    apply Forall_cons. split; [unfold arrives_before; lia|].
    apply Forall_forall. intros z Hz. pose proof (Hy z Hz) as Hyz. pose proof (Hx' z Hz).
    unfold arrives_before in *. lia.
  - constructor; [by apply IH|].
    apply Forall_forall. intros z [->|Hz]%elem_of_insert_launched; [|by apply Hy].
    unfold arrives_before. lia.
Qed.

Lemma launched_sorted n tasks : StronglySorted arrives_before (launched n tasks).
Proof.
  revert n. induction tasks as [|t tasks IH]; intros n; simpl; [constructor|].
  apply insert_launched_sorted; [apply IH|].
  intros [k u] [Hle _]%elem_of_launched. simpl. lia.
Qed.

Lemma sorted_lookup {A} (R : A → A → Prop) (l : list A) (i j : nat) (x y : A) :
  StronglySorted R l → l !! i = Some x → l !! j = Some y → i < j → R x y.
Proof.
  intros Hl. revert i j. induction Hl as [|z l _ IH Hz]; intros i j Hi Hj Hij; [done|].
  destruct j as [|j]; [lia|]. simpl in Hj. destruct i as [|i]; simpl in Hi.
  - injection Hi as ->. rewrite Forall_forall in Hz.
    by eapply Hz, list_elem_of_lookup_2.
  - apply (IH i j); [done..|lia].
Qed.

(** The arrival at position [i] is a task launched at some position [k];
    every task launched at another position with an arrival no earlier
    in the list completes later, or at the same instant and was launched
    later. *)
Lemma as_completed_stable tasks i t :
  as_completed tasks !! i = Some t →
  ∃ k, tasks !! k = Some t
    ∧ ∀ j u, tasks !! j = Some u →
        ∃ i', as_completed tasks !! i' = Some u
          ∧ (i ≤ i' → finish_at t < finish_at u ∨ (finish_at t = finish_at u ∧ k ≤ j)).
Proof.
  rewrite <- (launched_snd 0). intros Hi0. rewrite list_lookup_fmap in Hi0.
  destruct (launched 0 tasks !! i) as [[k t']|] eqn:Hi; [|done].
  injection Hi0 as <-.
  pose proof (list_elem_of_lookup_2 _ _ _ Hi) as Hk.
  apply elem_of_launched in Hk as [_ Hk]. rewrite Nat.sub_0_r in Hk.
  exists k. split; [done|]. intros j u Hj.
  assert ((j, u) ∈ launched 0 tasks) as Hu.
  { apply elem_of_launched. split; [lia|]. by rewrite Nat.sub_0_r. }
  apply list_elem_of_lookup in Hu as [i' Hi']. exists i'. split.
  { by rewrite list_lookup_fmap, Hi'. }
  intros Hle. destruct (decide (i = i')) as [<-|Hne].
  - assert (k = j ∧ t' = u) as [-> ->] by (split; congruence). right. split; lia.
  - pose proof (sorted_lookup _ _ i i' _ _ (launched_sorted 0 tasks) Hi Hi') as Hs.
    unfold arrives_before in Hs. simpl in Hs. lia.
Qed.

(** A stream whose content can be sliced at every start runs to the
    sentinel. *)
Lemma emit_chunks_total (response_id created_time model_name content : json)
    (chunk_size : nat) (starts : list nat) :
  (∀ i, ∃ chunk, py_slice content i chunk_size = Return chunk) →
  aborted (emit_chunks response_id created_time model_name content chunk_size starts) = None
  ∧ last (events (emit_chunks response_id created_time model_name content chunk_size starts))
    = Some SSEDone.
Proof.
  intros Hslice. induction starts as [|i starts [IHa IHl]]; [done|].
  cbn [emit_chunks]. destruct (Hslice i) as [chunk ->]. cbn [events aborted].
  split; [done|]. rewrite last_cons. by rewrite IHl.
Qed.

(** The stream of a content that has a length: it runs to the sentinel,
    unless the content is a non-empty dict, which has a length but no
    slices; the generator then raises before its first event. *)
Lemma generate_stream_outcome (response_id created_time model_name content : json)
    (n : nat) :
  py_len content = Return n →
  let body := generate_stream response_id created_time model_name content in
  (aborted body = None ∧ last (events body) = Some SSEDone)
  ∨ (events body = [] ∧ is_Some (aborted body) ∧ ∃ m, content = JObj m ∧ size m ≠ 0).
Proof.
  intros Hlen body. subst body. unfold generate_stream. rewrite Hlen.
  destruct content as [| | | |s|l|m]; try done.
  - left. apply emit_chunks_total. intros i. by eexists.
  - left. apply emit_chunks_total. intros i. by eexists.
  - injection Hlen as Hn. destruct n as [|n].
    + left. done.
    + right. unfold py_range. cbn [range_from Nat.ltb Nat.leb emit_chunks py_slice].
      split; [done|]. split; [done|]. exists m. split; [done|]. lia.
Qed.

Section proxy_facts.
Variable loads : string → option json.
Variable now : Z.
Variable exn_text : exn → string.
Variable net : nat → upstream_call → nat * post_result.
Variable renders : json → bool.

Lemma internal_error_idem {A} (body : py A) :
  internal_error exn_text (internal_error exn_text body) = internal_error exn_text body.
Proof.
  destruct body as [a|e]; [done|]. unfold internal_error; simpl.
  destruct e; reflexivity.
Qed.

(** The reply to an authorized request when the selected group has a
    valid key: the arbitration over the launched tasks, rendered as a JSON
    response or as a stream. The streaming path reads the minimum length
    from the configuration reloaded by the rotation, the other path from
    the configuration as it was when the request came in. *)
Lemma chat_completions_proxy_authorized (w : world) (header : option string)
    (stream : bool) (request_data : gmap string json) :
  check_authorization (memory w) header = Return () →
  valid_keys (get_current_api_keys w) ≠ [] →
  let w' := world_after (get_current_api_keys w) in
  let tasks := launch loads now net (memory w') request_data
                      (valid_keys (get_current_api_keys w)) in
  chat_completions_proxy loads now exn_text net renders w header stream request_data =
  Served
    (if stream then
       internal_error exn_text
         (b ← arbitrate (min_response_length (memory w')) tasks;
          Streaming <$> stream_response_content now (cand_result b) (cand_content b))
     else
       internal_error exn_text
         (b ← arbitrate (min_response_length (memory w)) tasks;
          json_response renders (cand_result b)))
    w'
    (calls_of (memory w') request_data (valid_keys (get_current_api_keys w))).
Proof.
  intros Hauth Hkeys. unfold chat_completions_proxy. rewrite Hauth.
  destruct stream.
  - unfold generate_fake_stream_response.
    destruct (valid_keys (get_current_api_keys w)) eqn:Hk; [done|]. simpl.
    by rewrite internal_error_idem.
  - by destruct (valid_keys (get_current_api_keys w)) eqn:Hk.
Qed.

(** C1. Take the responses of the dispatched calls, each one measured by
    the test of the loop (a failure, or a result with a content whose
    length can be taken). If at least one is a success whose content
    length reaches the minimum, arbitration returns the candidate whose
    content is the longest among those reaching the minimum, and among
    several of that length the one that arrived first: no call with a
    candidate of that length completed before the winner's, and of those
    completing at the same instant the winner's was launched first. The
    non-streaming handler answers with the winner's result (with the 500
    error when that result cannot be rendered as JSON), the streaming
    handler with the stream of its content, which runs to the sentinel
    unless the content is a non-empty dict. *)
Theorem arbitration_returns_longest (min_length : Z) (tasks : list task) :
  (∀ t, t ∈ tasks → ∃ o, candidate_of min_length t = Return o) →
  (∃ t c, t ∈ tasks ∧ candidate_of min_length t = Return (Some c)) →
  ∃ i best,
    arbitrate min_length tasks = Return best
    ∧ longest_earliest min_length (as_completed tasks) i best
    ∧ (∃ k t,
         tasks !! k = Some t
         ∧ candidate_of min_length t = Return (Some best)
         ∧ ∀ j u c, tasks !! j = Some u → candidate_of min_length u = Return (Some c) →
             token_count c ≤ token_count best
             ∧ (token_count c = token_count best →
                finish_at t < finish_at u ∨ (finish_at t = finish_at u ∧ k ≤ j)))
    ∧ (min_length ≤ Z.of_nat (token_count best))%Z
    ∧ py_len (cand_content best) = Return (token_count best)
    ∧ internal_error exn_text
        (b ← arbitrate min_length tasks; json_response renders (cand_result b))
      = (if renders (cand_result best) then Return (JSONResponse (cand_result best))
         else Raise (HTTPException 500 ("服务器内部错误: " +:+ exn_text ValueError)))
    ∧ ∃ body,
        stream_response_content now (cand_result best) (cand_content best) = Return body
        ∧ internal_error exn_text
            (b ← arbitrate min_length tasks;
             Streaming <$> stream_response_content now (cand_result b) (cand_content b))
          = Return (Streaming body)
        ∧ ((aborted body = None ∧ last (events body) = Some SSEDone)
           ∨ (events body = [] ∧ is_Some (aborted body)
              ∧ ∃ m, cand_content best = JObj m ∧ size m ≠ 0)).
Proof.
  intros Hall (t & c & Ht & Hc).
  destruct (arbitrate_measured min_length tasks Hall)
    as [(i & best & Harb & Hbest)|[_ Hnone]].
  2:{ rewrite (Hnone t Ht) in Hc. done. }
  exists i, best. rewrite Harb. split; [done|]. split; [done|].
  destruct Hbest as [(u & Hi & Hu) Hmax].
  destruct (candidate_of_Some _ _ _ Hu) as (_ & [m Hm] & Hlen & Hmin).
  split.
  { destruct (as_completed_stable tasks i u Hi) as (k & Hk & Hlater).
    exists k, u. split; [done|]. split; [done|]. intros j v d Hj Hd.
    destruct (Hlater j v Hj) as (i' & Hi' & Horder).
    destruct (Hmax i' v d Hi' Hd) as [Hcount Htie]. split; [done|].
    intros Heq. apply Horder, Htie, Heq. }
  split; [done|]. split; [done|]. split.
  { simpl. unfold json_response. by destruct (renders (cand_result best)). }
  unfold stream_response_content. simpl. rewrite Hm. simpl.
  eexists. split; [reflexivity|]. split; [reflexivity|].
  by eapply generate_stream_outcome.
Qed.

(** When every completed call is measured by the test of the loop and
    gives no candidate, arbitration raises the [HTTPException] with
    status 503, and both handlers let it through to the client as it
    is. *)
Lemma no_valid_response_is_503 (min_length : Z) (tasks : list task) :
  (∀ t, t ∈ tasks → candidate_of min_length t = Return None) →
  arbitrate min_length tasks = Raise (HTTPException 503 "所有上游API请求均失败")
  ∧ internal_error exn_text
      (b ← arbitrate min_length tasks; json_response renders (cand_result b))
    = Raise (HTTPException 503 "所有上游API请求均失败")
  ∧ internal_error exn_text
      (b ← arbitrate min_length tasks;
       Streaming <$> stream_response_content now (cand_result b) (cand_content b))
    = Raise (HTTPException 503 "所有上游API请求均失败").
Proof.
  intros Hnone.
  destruct (arbitrate_measured min_length tasks)
    as [(i & best & _ & (u & Hi & Hu) & _)|[Harb _]].
  - intros t Ht. rewrite (Hnone t Ht). eauto.
  - apply list_elem_of_lookup_2 in Hi. rewrite as_completed_perm in Hi.
    rewrite (Hnone u Hi) in Hu. done.
  - rewrite Harb. done.
Qed.

(** A completion whose content is [null] passes the test of the loop and
    fails [len]. *)
Lemma consider_null_content (min_length : Z) (valid_responses : list candidate) :
  consider min_length valid_responses (Some null_completion) = Raise TypeError.
Proof. vm_compute. reflexivity. Qed.

(** The first loop stops at the first arrival whose content is [null]:
    the test passes, [len] raises and only a cancellation is caught. *)
Lemma collect_null_content (min_length : Z) (arrivals : list task) (clock : nat) :
  (∀ t, t ∈ arrivals →
     outcome t = Return (Some null_completion)
     ∨ candidate_of min_length t = Return None) →
  (∃ t, t ∈ arrivals ∧ outcome t = Return (Some null_completion)) →
  collect min_length clock [] arrivals = Raise TypeError.
Proof.
  revert clock. induction arrivals as [|t arrivals IH]; intros clock Hall (u & Hu & Hnull).
  { by apply elem_of_nil in Hu. }
  cbn [collect].
  destruct (Hall t) as [Ht|Ht]; [apply elem_of_cons; by left|..].
  { rewrite Ht. cbn [mbind py_bind]. by rewrite consider_null_content. }
  assert (try_except (result ← outcome t; consider min_length [] result)
                     is_CancelledError (λ _, Return []) = Return []) as ->.
  { unfold candidate_of in Ht. destruct (outcome t) as [r|e]; [|done].
    cbn [mbind py_bind] in *.
    destruct (consider min_length [] r) as [[|c cs]|e]; done. }
  cbn [mbind py_bind]. apply IH.
  - intros v Hv. apply Hall, elem_of_cons. by right.
  - apply elem_of_cons in Hu as [->|Hu]; [|by exists u].
    unfold candidate_of in Ht. rewrite Hnull in Ht. cbn [mbind py_bind] in Ht.
    by rewrite consider_null_content in Ht.
Qed.

(** C2, evaluated on the code. A call answered 200 with a completion
    whose content is [null], the other calls failing or too short: no
    completed call is a success whose content length reaches the minimum,
    yet arbitration does not raise the 503 error. [len(None)] raises
    [TypeError] in the first loop, which catches cancellations only, and
    both handlers answer with the 500 error. *)
Theorem null_content_is_not_503 (min_length : Z) (tasks : list task) :
  (∀ t, t ∈ tasks →
     outcome t = Return (Some null_completion)
     ∨ candidate_of min_length t = Return None) →
  (∃ t, t ∈ tasks ∧ outcome t = Return (Some null_completion)) →
  (∀ t c, t ∈ tasks → candidate_of min_length t ≠ Return (Some c))
  ∧ arbitrate min_length tasks = Raise TypeError
  ∧ internal_error exn_text
      (b ← arbitrate min_length tasks; json_response renders (cand_result b))
    = Raise (HTTPException 500 ("服务器内部错误: " +:+ exn_text TypeError))
  ∧ internal_error exn_text
      (b ← arbitrate min_length tasks;
       Streaming <$> stream_response_content now (cand_result b) (cand_content b))
    = Raise (HTTPException 500 ("服务器内部错误: " +:+ exn_text TypeError)).
Proof.
  intros Hall (u & Hu & Hnull). split.
  { intros t c Ht Hc. destruct (Hall t Ht) as [Hn|Hn]; [|congruence].
    unfold candidate_of in Hc. rewrite Hn in Hc. cbn [mbind py_bind] in Hc.
    by rewrite consider_null_content in Hc. }
  assert (arbitrate min_length tasks = Raise TypeError) as ->; [|done].
  unfold arbitrate, gather. rewrite collect_null_content; [done|..].
  - intros t Ht. apply Hall. by rewrite <- as_completed_perm.
  - exists u. by rewrite as_completed_perm.
Qed.

Lemma prefix_app (p s : string) : String.prefix p s = true → ∃ r, s = p +:+ r.
Proof.
  revert s. induction p as [|a p IH]; intros s Hp; [by exists s|].
  destruct s as [|b s]; simpl in Hp; [done|].
  destruct (ascii_dec a b) as [->|]; [|done].
  destruct (IH s Hp) as [r ->]. by exists r.
Qed.

Lemma split_nonempty (sep : ascii) (s : string) : split sep s ≠ [].
Proof.
  destruct s as [|a s]; simpl; [done|].
  destruct (Ascii.eqb a sep); [done|]. by destruct (split sep s).
Qed.

(** A header that starts with ["Bearer "] has a second field. *)
Lemma bearer_has_token (header : string) :
  String.prefix "Bearer " header = true → ∃ k, split " "%char header !! 1 = Some k.
Proof.
  intros [r ->]%prefix_app. simpl. change ("" +:+ r) with r.
  pose proof (split_nonempty " "%char r).
  destruct (split " "%char r) as [|k ks]; [done|]. by exists k.
Qed.

(** C7, as the code has it. The token the handler compares is the second
    space-separated field of a header that starts with ["Bearer "]. A
    request whose header is missing or does not start so, or whose token
    is empty or different from the configured server key, is answered
    with the 401 error; no upstream call is issued and the process state
    (rotation counter, configuration) is as before. The handler has no
    access to the monitor, whose counters it cannot change. *)
Theorem unauthorized_request_is_rejected (w : world) (header : option string)
    (stream : bool) (request_data : gmap string json) :
  bearer_token header ≠ Some (api_key (memory w)) ∨ bearer_token header = Some "" →
  ∃ detail,
    chat_completions_proxy loads now exn_text net renders w header stream request_data
    = Served (Raise (HTTPException 401 detail)) w [].
Proof.
  intros Htoken. unfold chat_completions_proxy, check_authorization.
  destruct header as [h|]; [|by eexists].
  simpl in Htoken.
  destruct (String.prefix "Bearer " h) eqn:Hp.
  2:{ rewrite orb_true_r. by eexists. }
  destruct (String.eqb_spec h "") as [->|_]; [done|]. simpl.
  destruct (bearer_has_token h Hp) as [k Hk]. rewrite Hk in Htoken |- *.
  destruct (String.eqb_spec k "") as [->|Hne]; simpl; [by eexists|].
  destruct (String.eqb_spec k (api_key (memory w))) as [->|_]; simpl; [|by eexists].
  destruct Htoken as [Htoken|[=]]; done.
Qed.

End proxy_facts.


Lemma arbitration_returns_longest_witness :
  (∀ t, t ∈ sample_tasks → ∃ o, candidate_of 5 t = Return o)
  ∧ (∃ t c, t ∈ sample_tasks ∧ candidate_of 5 t = Return (Some c))
  ∧ ∃ i best,
      arbitrate 5 sample_tasks = Return best
      ∧ longest_earliest 5 (as_completed sample_tasks) i best
      ∧ (∃ k t,
           sample_tasks !! k = Some t
           ∧ candidate_of 5 t = Return (Some best)
           ∧ ∀ j u c, sample_tasks !! j = Some u → candidate_of 5 u = Return (Some c) →
               token_count c ≤ token_count best
               ∧ (token_count c = token_count best →
                  finish_at t < finish_at u ∨ (finish_at t = finish_at u ∧ k ≤ j)))
      ∧ (5 ≤ Z.of_nat (token_count best))%Z
      ∧ py_len (cand_content best) = Return (token_count best)
      ∧ internal_error (λ _, "error")
          (b ← arbitrate 5 sample_tasks; json_response json_finite (cand_result b))
        = (if json_finite (cand_result best) then Return (JSONResponse (cand_result best))
           else Raise (HTTPException 500 ("服务器内部错误: " +:+ "error")))
      ∧ ∃ body,
          stream_response_content 0 (cand_result best) (cand_content best) = Return body
          ∧ internal_error (λ _, "error")
              (b ← arbitrate 5 sample_tasks;
               Streaming <$> stream_response_content 0 (cand_result b) (cand_content b))
            = Return (Streaming body)
          ∧ ((aborted body = None ∧ last (events body) = Some SSEDone)
             ∨ (events body = [] ∧ is_Some (aborted body)
                ∧ ∃ m, cand_content best = JObj m ∧ size m ≠ 0)).
Proof.
  assert (∀ t, t ∈ sample_tasks → ∃ o, candidate_of 5 t = Return o) as H1.
  { intros t Ht. unfold sample_tasks in Ht.
    repeat (apply elem_of_cons in Ht as [->|Ht]; [eexists; vm_compute; reflexivity|]).
    by apply elem_of_nil in Ht. }
  assert (∃ t c, t ∈ sample_tasks ∧ candidate_of 5 t = Return (Some c)) as H2.
  { eexists (Task "key-1" 3 _), _. split; [apply elem_of_cons; by left|].
    vm_compute. reflexivity. }
  split; [exact H1|]. split; [exact H2|].
  exact (arbitration_returns_longest 0 (λ _, "error") json_finite 5 sample_tasks H1 H2).
Defined.

Lemma null_content_is_not_503_witness :
  (∀ t, t ∈ sample_null_content →
     outcome t = Return (Some null_completion) ∨ candidate_of 5 t = Return None)
  ∧ (∃ t, t ∈ sample_null_content ∧ outcome t = Return (Some null_completion))
  ∧ (∀ t c, t ∈ sample_null_content → candidate_of 5 t ≠ Return (Some c))
  ∧ arbitrate 5 sample_null_content = Raise TypeError
  ∧ internal_error (λ _, "error")
      (b ← arbitrate 5 sample_null_content; json_response json_finite (cand_result b))
    = Raise (HTTPException 500 ("服务器内部错误: " +:+ "error"))
  ∧ internal_error (λ _, "error")
      (b ← arbitrate 5 sample_null_content;
       Streaming <$> stream_response_content 0 (cand_result b) (cand_content b))
    = Raise (HTTPException 500 ("服务器内部错误: " +:+ "error")).
Proof.
  assert (∀ t, t ∈ sample_null_content →
            outcome t = Return (Some null_completion) ∨ candidate_of 5 t = Return None)
    as H1.
  { intros t Ht. unfold sample_null_content in Ht.
    apply elem_of_cons in Ht as [->|Ht]; [by left|].
    apply elem_of_cons in Ht as [->|Ht]; [by right|].
    by apply elem_of_nil in Ht. }
  assert (∃ t, t ∈ sample_null_content ∧ outcome t = Return (Some null_completion)) as H2.
  { eexists (Task "key-1" 1 _). split; [apply elem_of_cons; by left | reflexivity]. }
  split; [exact H1|]. split; [exact H2|].
  exact (null_content_is_not_503 0 (λ _, "error") json_finite 5 sample_null_content H1 H2).
Defined.

Lemma unauthorized_request_is_rejected_witness :
  (bearer_token (Some "Bearer wrong-key") ≠ Some (api_key sample_config)
   ∨ bearer_token (Some "Bearer wrong-key") = Some "")
  ∧ ∃ detail,
      chat_completions_proxy (λ _, None) 0 (λ _, "error") (λ _ _, (0, PostRaises)) json_finite
        (World 0 sample_config sample_config) (Some "Bearer wrong-key") false ∅
      = Served (Raise (HTTPException 401 detail)) (World 0 sample_config sample_config) [].
Proof.
  assert (bearer_token (Some "Bearer wrong-key") ≠ Some (api_key sample_config)
          ∨ bearer_token (Some "Bearer wrong-key") = Some "") as H1.
  { left. vm_compute. intros [=]. }
  split; [exact H1|].
  exact (unauthorized_request_is_rejected (λ _, None) 0 (λ _, "error")
           (λ _ _, (0, PostRaises)) json_finite (World 0 sample_config sample_config)
           (Some "Bearer wrong-key") false ∅ H1).
Defined.

(** The header ["Bearer 123 extra"] against the server key ["123"]: what
    follows ["Bearer "] is not the key, yet the request is served. The
    check passes, the rotation moves on, an upstream call is sent and its
    answer is returned. *)
Lemma trailing_text_is_accepted :
  str_drop 7 "Bearer 123 extra" ≠ api_key answering_config
  ∧ check_authorization answering_config (Some "Bearer 123 extra") = Return ()
  ∧ reply (chat_completions_proxy sample_loads 0 (λ _, "error") answering_net json_finite
             (World 0 answering_config answering_config) (Some "Bearer 123 extra") false ∅)
    = Return (JSONResponse (completion "short answer"))
  ∧ call_authorization
      <$> upstream_calls
            (chat_completions_proxy sample_loads 0 (λ _, "error") answering_net json_finite
               (World 0 answering_config answering_config) (Some "Bearer 123 extra")
               false ∅)
    = ["Bearer AIzaSy-credential-A"]
  ∧ current_group_index
      (world_end
         (chat_completions_proxy sample_loads 0 (λ _, "error") answering_net json_finite
            (World 0 answering_config answering_config) (Some "Bearer 123 extra") false ∅))
    = 1%Z.
Proof.
  split; [vm_compute; intros [=]|]. repeat split; vm_compute; reflexivity.
Qed.

(** The winner of the first sample run is the longer answer, which
    arrived second of the three. *)
Example sample_tasks_winner :
  arbitrate 5 sample_tasks =
  Return (Candidate (completion "a much longer answer") (JStr "a much longer answer") 20)
  ∧ task_key <$> as_completed sample_tasks = ["key-2"; "key-3"; "key-1"].
Proof. split; vm_compute; reflexivity. Qed.

(** Of two answers of the same length the one that arrived first wins,
    also when it was launched last. *)
Example tie_goes_to_first_arrival :
  arbitrate 5 [ Task "key-1" 9 (Return (Some (completion "answer one")));
                Task "key-2" 4 (Return (Some (completion "answer two"))) ]
  = Return (Candidate (completion "answer two") (JStr "answer two") 10).
Proof. vm_compute. reflexivity. Qed.

(** A result whose content is [null] ends the request with the 500
    error even when another call gave a valid answer, whether that answer
    arrived before or after it. *)
Example null_content_is_500 :
  internal_error (λ _, "error")
    (b ← arbitrate 5 [ Task "key-1" 1 (Return (Some null_completion));
                       Task "key-2" 2 (Return (Some (completion "short answer"))) ];
     json_response json_finite (cand_result b))
  = Raise (HTTPException 500 "服务器内部错误: error")
  ∧ internal_error (λ _, "error")
      (b ← arbitrate 5 [ Task "key-1" 2 (Return (Some null_completion));
                         Task "key-2" 1 (Return (Some (completion "short answer"))) ];
       json_response json_finite (cand_result b))
    = Raise (HTTPException 500 "服务器内部错误: error").
Proof. split; vm_compute; reflexivity. Qed.

(** C3, evaluated on the code. A first valid answer completes at instant
    1 and a second call completes at instant 100, long after a grace
    window of 15 would have closed. The block still waits for the second
    call, cancels nothing and lets the late answer win: the first loop
    awaits every task, so [asyncio.wait(..., timeout=15)] is never
    reached with a task to wait for. *)
Theorem grace_window_never_closes :
  gather 5 early_and_late =
    Return (Gathered
              [ Candidate (completion "short answer") (JStr "short answer") 12;
                Candidate (completion "a much longer answer")
                          (JStr "a much longer answer") 20 ]
              100 [])
  ∧ arbitrate 5 early_and_late =
    Return (Candidate (completion "a much longer answer") (JStr "a much longer answer") 20)
  ∧ 1 + grace_period < 100.
Proof.
  split; [vm_compute; reflexivity|]. split; [vm_compute; reflexivity|].
  unfold grace_period. lia.
Qed.


(** ** The monitor *)

Lemma deque_append_length {A} (maxlen : nat) (d : list A) (x : A) :
  length d ≤ maxlen → length (deque_append maxlen d x) ≤ maxlen.
Proof.
  intros Hd. unfold deque_append.
  destruct (Nat.ltb_spec maxlen (length (d ++ [x]))) as [Hlt|Hge]; [|done].
  rewrite length_drop, length_app. simpl. lia.
Qed.

(** At capacity, an append drops the oldest entry and keeps the rest in
    order, the new entry last. *)
Lemma deque_append_full {A} (maxlen : nat) (d : list A) (x : A) :
  length d = maxlen → deque_append maxlen d x = drop 1 (d ++ [x]).
Proof.
  intros Hd. unfold deque_append.
  destruct (Nat.ltb_spec maxlen (length (d ++ [x]))) as [Hlt|Hge]; [done|].
  rewrite length_app in Hge. simpl in Hge. lia.
Qed.

(** Below capacity, an append only adds the entry. *)
Lemma deque_append_room {A} (maxlen : nat) (d : list A) (x : A) :
  length d < maxlen → deque_append maxlen d x = d ++ [x].
Proof.
  intros Hd. unfold deque_append.
  destruct (Nat.ltb_spec maxlen (length (d ++ [x]))) as [Hlt|Hge]; [|done].
  rewrite length_app in Hlt. simpl in Hlt. lia.
Qed.

Section bounded_updates.
Variable capacity : nat.

Lemma bounded_fresh now : bounded capacity (RequestMonitor capacity now).
Proof. repeat split; simpl; lia. Qed.

Lemma bounded_count_request status_code key m :
  bounded capacity m → bounded capacity (count_request status_code key m).
Proof. intros (? & ? & ? & ?). by repeat split. Qed.

Lemma bounded_count_success m : bounded capacity m → bounded capacity (count_success m).
Proof. intros (? & ? & ? & ?). by repeat split. Qed.

Lemma bounded_count_truncated m :
  bounded capacity m → bounded capacity (count_truncated m).
Proof. intros (? & ? & ? & ?). by repeat split. Qed.

Lemma bounded_count_failure key m :
  bounded capacity m → bounded capacity (count_failure key m).
Proof. intros (? & ? & ? & ?). by repeat split. Qed.

Lemma bounded_append_error e m : bounded capacity m → bounded capacity (append_error e m).
Proof.
  intros (? & ? & ? & ?). repeat split; simpl; try done.
  by apply deque_append_length.
Qed.

Lemma bounded_append_response_time rt m :
  bounded capacity m → bounded capacity (append_response_time rt m).
Proof.
  intros (? & ? & ? & ?). repeat split; simpl; try done.
  by apply deque_append_length.
Qed.

Lemma bounded_append_log entry m : bounded capacity m → bounded capacity (append_log entry m).
Proof.
  intros (? & ? & ? & ?). repeat split; simpl; try done.
  by apply deque_append_length.
Qed.

Lemma bounded_clear_stats now m : bounded capacity m → bounded capacity (clear_stats now m).
Proof. intros (? & ? & ? & ?). repeat split; simpl; done || lia. Qed.

Lemma keeps_bind {A B} (P : monitor → Prop) (c : co A) (f : A → co B) :
  keeps P c → (∀ a, keeps P (f a)) → keeps P (co_bind f c).
Proof. induction 1; intros Hf; simpl; try constructor; auto. Qed.

Create HintDb monitor.
#[local] Hint Constructors keeps : monitor.
#[local] Hint Resolve bounded_count_request bounded_count_success bounded_count_truncated
  bounded_count_failure bounded_append_error bounded_append_response_time
  bounded_append_log bounded_clear_stats : monitor.

Lemma add_log_keeps now level message details :
  keeps (bounded capacity) (add_log now level message details).
Proof. unfold add_log, with_lock, update. simpl. eauto 10 with monitor. Qed.

Lemma record_request_keeps now format_2f key status_code response_time
    response_length min_length error_msg :
  keeps (bounded capacity)
        (record_request now format_2f key status_code response_time response_length
                        min_length error_msg).
Proof.
  unfold record_request, with_lock, update.
  destruct ((200 <=? status_code)%Z && (status_code <? 300)%Z);
    destruct ((0 <? response_length)%Z && (response_length <? min_length)%Z);
    destruct error_msg as [msg|]; try destruct (negb (String.eqb msg ""));
    simpl; eauto 20 with monitor.
Qed.

(** Every method of the monitor keeps the buffers within capacity at each
    of its steps. *)
Lemma call_keeps (op : operation) : keeps (bounded capacity) (call op).
Proof.
  destruct op.
  - refine (keeps_bind _ _ _ (record_request_keeps _ _ _ _ _ _ _ _) _).
    intros; apply keeps_done.
  - refine (keeps_bind _ _ _ (add_log_keeps _ _ _ _) _).
    intros; apply keeps_done.
  - simpl. eauto 10 with monitor.
  - simpl. eauto 10 with monitor.
  - simpl. eauto 10 with monitor.
  - simpl. eauto 10 with monitor.
Qed.

Lemma step_keeps {A} (m m' : monitor) (locked locked' : bool) (c c' : co A) :
  step m locked c = Some (m', locked', c') →
  bounded capacity m → keeps (bounded capacity) c →
  bounded capacity m' ∧ keeps (bounded capacity) c'.
Proof.
  intros Hstep Hm Hc. destruct Hc; simpl in Hstep.
  - done.
  - destruct locked; [done|]. by injection Hstep as <- <- <-.
  - by injection Hstep as <- <- <-.
  - injection Hstep as <- <- <-. auto.
  - injection Hstep as <- <- <-. auto.
Qed.

(** The capacities are an invariant of the event loop. *)
Lemma sys_step_bounded (s s' : system) :
  sys_step s s' →
  bounded capacity (mon s) ∧ Forall (keeps (bounded capacity)) (running s) →
  bounded capacity (mon s') ∧ Forall (keeps (bounded capacity)) (running s').
Proof.
  intros Hstep [Hm Hrun]. destruct Hstep as [s op|s i c c' m' locked' Hi Hstep]; simpl.
  - split; [done|]. apply Forall_app. split; [done|].
    apply Forall_singleton, call_keeps.
  - pose proof (Forall_lookup_1 _ _ _ _ Hrun Hi) as Hc.
    destruct (step_keeps _ _ _ _ _ _ Hstep Hm Hc) as [Hm' Hc'].
    split; [done|]. by apply Forall_insert.
Qed.

End bounded_updates.

(** C9. Whatever calls of the monitor's methods are made (record, add-log,
    reset, snapshot and the two log readers) and however their steps
    interleave, the log never holds more than [max_log_entries] entries
    and the error and response-time buffers never more than 100. An append
    to a buffer at capacity drops its oldest entry and puts the new one
    last. *)
Theorem buffers_within_capacity (capacity : nat) (now : string) (s : system) :
  rtc sys_step (fresh_system capacity now) s →
  (max_log_entries (mon s) = capacity
   ∧ length (recent_logs (mon s)) ≤ capacity
   ∧ length (error_details (mon s)) ≤ 100
   ∧ length (response_times (mon s)) ≤ 100)
  ∧ (∀ entry, length (recent_logs (mon s)) = capacity →
       recent_logs (append_log entry (mon s)) = drop 1 (recent_logs (mon s) ++ [entry]))
  ∧ (∀ e, length (error_details (mon s)) = 100 →
       error_details (append_error e (mon s)) = drop 1 (error_details (mon s) ++ [e]))
  ∧ (∀ rt, length (response_times (mon s)) = 100 →
       response_times (append_response_time rt (mon s))
       = drop 1 (response_times (mon s) ++ [rt])).
Proof.
  intros Hreach.
  assert (bounded capacity (mon s) ∧ Forall (keeps (bounded capacity)) (running s))
    as [(Hcap & Hlogs & Herrs & Hrts) _].
  { revert s Hreach. apply rtc_ind_r.
    - split; [apply bounded_fresh | constructor].
    - intros s s' _ Hstep IH. by eapply sys_step_bounded. }
  split; [by rewrite <- Hcap at 2|].
  split; [|split].
  - intros entry Hfull. simpl. apply deque_append_full. by rewrite Hcap.
  - intros e Hfull. simpl. by apply deque_append_full.
  - intros rt Hfull. simpl. by apply deque_append_full.
Qed.

Lemma buffers_within_capacity_witness :
  rtc sys_step (fresh_system 1 "t0")
      (System (Monitor 1 0 0 0 0 ∅ ∅ ∅ [] [LogEntry "t2" "INFO" "second" ∅] [] "t0")
              false [Done NoAnswer; Done NoAnswer])
  ∧ (1 = 1 ∧ 1 ≤ 1 ∧ 0 ≤ 100 ∧ 0 ≤ 100)
  ∧ (∀ entry, 1 = 1 →
       deque_append 1 [LogEntry "t2" "INFO" "second" ∅] entry
       = drop 1 ([LogEntry "t2" "INFO" "second" ∅] ++ [entry]))
  ∧ (∀ e : error_detail, 0 = 100 → deque_append 100 [] e = drop 1 ([] ++ [e]))
  ∧ (∀ rt : float, 0 = 100 → deque_append 100 [] rt = drop 1 ([] ++ [rt])).
Proof.
  assert (rtc sys_step (fresh_system 1 "t0")
            (System (Monitor 1 0 0 0 0 ∅ ∅ ∅ [] [LogEntry "t2" "INFO" "second" ∅] [] "t0")
                    false [Done NoAnswer; Done NoAnswer])) as Hreach.
  { eapply rtc_l; [exact (step_call _ (AddLog "t1" "INFO" "first" None))|].
    do 3 (eapply rtc_l; [eapply (step_task _ 0); reflexivity|]).
    eapply rtc_l; [exact (step_call _ (AddLog "t2" "INFO" "second" None))|].
    do 3 (eapply rtc_l; [eapply (step_task _ 1); reflexivity|]).
    apply rtc_refl. }
  split; [exact Hreach|].
  exact (buffers_within_capacity 1 "t0" _ Hreach).
Defined.

(** A coroutine that cannot step stays as it is. *)
Lemma run_blocked {A} (n : nat) (m : monitor) (locked : bool) (c : co A) :
  step m locked c = None → run n m locked c = (m, locked, c).
Proof. intros Hstep. destruct n; simpl; [done|]. by rewrite Hstep. Qed.

(** While the lock is held every method waits at its first step. *)
Lemma call_waits_for_lock (op : operation) (m : monitor) :
  step m true (call op) = None ∧ returned (call op) = false.
Proof. by destruct op. Qed.

(** C10, evaluated on the code. A call of [record_request] on a monitor
    whose lock is free never returns: after any number of steps the
    coroutine has not returned and, once started, it holds the lock; from
    its sixth step at the latest it stands at the [async with self._lock]
    of [add_log], waiting for the lock it holds itself. *)
Theorem record_request_never_returns (now : string) (format_2f : float → string)
    (key : string) (status_code : Z) (response_time : float)
    (response_length min_length : Z) (error_msg : option string)
    (m : monitor) (n : nat) :
  returned (run n m false
              (record_request now format_2f key status_code response_time
                              response_length min_length error_msg)).2 = false
  ∧ (run n m false
         (record_request now format_2f key status_code response_time
                         response_length min_length error_msg)).1.2 = negb (Nat.eqb n 0)
  ∧ ∃ m' k,
      run (6 + n) m false
          (record_request now format_2f key status_code response_time
                          response_length min_length error_msg)
      = (m', true, Acquire k).
Proof.
  unfold record_request, with_lock, update, add_log.
  destruct ((200 <=? status_code)%Z && (status_code <? 300)%Z);
    destruct ((0 <? response_length)%Z && (response_length <? min_length)%Z);
    destruct error_msg as [msg|]; try destruct (negb (String.eqb msg ""));
    (split; [|split];
     [ do 6 (destruct n as [|n]; [reflexivity|]); reflexivity
     | do 6 (destruct n as [|n]; [reflexivity|]); reflexivity
     | simpl; eauto ]).
Qed.


(** ** Sample runs of the handlers and of the monitor *)

(** Lengths 50 and 500 against a minimum of 300: the answer of length 500
    is returned; against a minimum of 600 arbitration fails. *)
Example lengths_50_and_500 :
  token_count <$> arbitrate 300
    [ Task "key-1" 1 (Return (Some (completion (text_of_length 50))));
      Task "key-2" 2 (Return (Some (completion (text_of_length 500)))) ]
  = Return 500
  ∧ arbitrate 600
      [ Task "key-1" 1 (Return (Some (completion (text_of_length 50))));
        Task "key-2" 2 (Return (Some (completion (text_of_length 500)))) ]
    = Raise (HTTPException 503 "所有上游API请求均失败").
Proof. split; vm_compute; reflexivity. Qed.

(** A content of 100 characters is streamed as 50 chunks of two
    characters, the stop chunk and the sentinel. *)
Example stream_of_100_characters :
  (λ r, (length (events r), aborted r, last (events r)))
    <$> stream_response_content 0 (completion "x") (JStr (text_of_length 100))
  = Return (52, None, Some SSEDone).
Proof. vm_compute. reflexivity. Qed.

(** An authorized request on a network where every call fails: one call
    per valid key of the group in turn, then the 503 error. *)
Example all_calls_fail :
  let s := chat_completions_proxy sample_loads 0 (λ _, "error") dead_net json_finite
             (World 0 sample_config sample_config) (Some "Bearer 123") false
             {[ "model" := JStr "gemini-2.5-flash"; "user" := JStr "me" ]} in
  reply s = Raise (HTTPException 503 "所有上游API请求均失败")
  ∧ call_authorization <$> upstream_calls s = ["Bearer AIzaSy-credential-A"]
  ∧ call_json <$> upstream_calls s = [ {[ "model" := JStr "gemini-2.5-flash" ]} ]
  ∧ current_group_index (world_end s) = 1%Z.
Proof. vm_compute. done. Qed.

(** The same request on a network that answers with a twelve-character
    completion, with a minimum length of 5. *)
Example one_call_answers :
  reply (chat_completions_proxy sample_loads 0 (λ _, "error") answering_net json_finite
           (World 0 (Config "123" 5 120 ["AIzaSy-credential-A"] [] "u")
                    (Config "123" 5 120 ["AIzaSy-credential-A"] [] "u"))
           (Some "Bearer 123") false ∅)
  = Return (JSONResponse (completion "short answer")).
Proof. vm_compute. reflexivity. Qed.

(** A failed request recorded on a fresh monitor: the counters and the
    two buffers are written, then the call stands at the lock of
    [add_log] with the lock taken and the log still empty. *)
Example record_request_stuck_state :
  ∃ k,
    run 10 (RequestMonitor 1000 "t0") false
        (record_request "t1" (λ _, "0.50") "AIzaSy-credential-A" 500 0.5%float 0 300
                        (Some "boom"))
    = (Monitor 1000 1 0 1 0 {[ 500%Z := 1 ]} {[ "AIzaSy-credential-A" := 1 ]}
               {[ "AIzaSy-credential-A" := 1 ]} [0.5%float] []
               [ErrorDetail "t1" "AIzaSy-c..." 500 "boom" 0.5%float] "t0",
       true, Acquire k).
Proof. eexists. vm_compute. reflexivity. Qed.

(** A truncated success: the truncation is counted, then the call stands
    at the lock of the first [add_log], before the response time is
    appended. *)
Example record_request_truncated_stuck_state :
  ∃ k,
    run 10 (RequestMonitor 1000 "t0") false
        (record_request "t1" (λ _, "0.50") "AIzaSy-credential-A" 200 0.5%float 120 300 None)
    = (Monitor 1000 1 1 0 1 {[ 200%Z := 1 ]} {[ "AIzaSy-credential-A" := 1 ]} ∅ [] [] []
               "t0",
       true, Acquire k).
Proof. eexists. vm_compute. reflexivity. Qed.

(** [add_log] on its own takes the lock, appends and releases it. *)
Example add_log_returns :
  run 10 (RequestMonitor 1000 "t0") false (add_log "t1" "INFO" "GET /" None)
  = (Monitor 1000 0 0 0 0 ∅ ∅ ∅ [] [LogEntry "t1" "INFO" "GET /" ∅] [] "t0",
     false, Done ()).
Proof. vm_compute. reflexivity. Qed.


(* ===================================================================== *)
(** * Further properties of the code *)
(* ===================================================================== *)

(** ** Arbitration, whatever the responses *)

Lemma ordinary_consider min_length vr result : ordinary (consider min_length vr result).
Proof.
  destruct result as [r|]; simpl; [|done].
  destruct (truthy r); simpl; [|done].
  destruct (py_in "choices" r) as [[|]|e] eqn:Hin; simpl; try done.
  2:{ by pose proof (ordinary_py_in "choices" r) as H; rewrite Hin in H. }
  pose proof (ordinary_py_getitem r "choices") as H1.
  destruct (py_getitem r "choices") as [choices|e]; simpl; [|done].
  destruct (truthy choices); simpl; [|done].
  pose proof (ordinary_py_index choices 0) as H2.
  destruct (py_index choices 0) as [first|e]; simpl; [|done].
  pose proof (ordinary_py_get first "message" (JObj ∅)) as H3.
  destruct (py_get first "message" (JObj ∅)) as [message|e]; simpl; [|done].
  pose proof (ordinary_py_get message "content" (JStr "")) as H4.
  destruct (py_get message "content" (JStr "")) as [content|e]; simpl; [|done].
  pose proof (ordinary_py_len content) as H5.
  destruct (py_len content) as [n|e]; simpl; [|done].
  by destruct (min_length <=? Z.of_nat n)%Z.
Qed.

(** The content a candidate records is the message content of its
    result. *)
Lemma candidate_of_content min_length t c :
  candidate_of min_length t = Return (Some c) →
  message_content (cand_result c) = Return (cand_content c).
Proof.
  unfold candidate_of, message_content.
  destruct (outcome t) as [[r|]|e]; simpl; try done.
  destruct (truthy r); simpl; [|done].
  destruct (py_in "choices" r) as [[|]|e]; simpl; try done.
  destruct (py_getitem r "choices") as [choices|e] eqn:Hch; simpl; [|done].
  destruct (truthy choices); simpl; [|done].
  destruct (py_index choices 0) as [first|e] eqn:Hfirst; simpl; [|done].
  destruct (py_get first "message" (JObj ∅)) as [message|e] eqn:Hmsg; simpl; [|done].
  destruct (py_get message "content" (JStr "")) as [content|e] eqn:Hc; simpl; [|done].
  destruct (py_len content) as [n|e]; simpl; [|done].
  destruct (min_length <=? Z.of_nat n)%Z; simpl; [|done].
  intros [= <-]; simpl. rewrite Hch; simpl. rewrite Hfirst; simpl. by rewrite Hmsg.
Qed.

(** When the first loop ends normally, the clock stands at the latest
    completion and the list holds what the tasks contributed, in arrival
    order. *)
Lemma collect_returns min_length arrivals :
  ∀ clock vr clock' vr',
    collect min_length clock vr arrivals = Return (clock', vr') →
    clock' = foldl (λ c t, Nat.max c (finish_at t)) clock arrivals
    ∧ ∃ os, Forall2 (contributes min_length) arrivals os ∧ vr' = vr ++ omap id os.
Proof.
  induction arrivals as [|t arrivals IH]; intros clock vr clock' vr' Hc.
  { injection Hc as <- <-. split; [done|]. exists []. split; [constructor|].
    by rewrite app_nil_r. }
  cbn [collect foldl] in Hc |- *.
  assert (∃ o, contributes min_length t o ∧
               try_except (result ← outcome t; consider min_length vr result)
                          is_CancelledError (λ _, Return vr)
               = Return (vr ++ option_list o)) as (o & Ho & Heq).
  { unfold contributes, candidate_of.
    destruct (outcome t) as [result|e] eqn:Hout; cbn [mbind py_bind] in *.
    - pose proof (consider_append min_length vr result) as Happ.
      pose proof (ordinary_consider min_length [] result) as Hord.
      destruct (consider min_length [] result) as [cs|e] eqn:Hcons; simpl in Happ.
      + exists (head cs). rewrite Happ. split; [by left | done].
      + rewrite Happ in Hc. destruct e; simpl in *; done.
    - destruct e; simpl in *; try done.
      exists None. split; [by right|]. by rewrite app_nil_r. }
  rewrite Heq in Hc. cbn [mbind py_bind] in Hc.
  apply IH in Hc as (-> & os & Hos & ->).
  split; [done|]. exists (o :: os). split; [by constructor|].
  destruct o; simpl; [by rewrite <- app_assoc | by rewrite app_nil_r].
Qed.

(** Whenever the block ends normally it has waited for every call and
    cancelled none. *)
Lemma gather_returns min_length tasks g :
  gather min_length tasks = Return g →
  clock g = foldl (λ c t, Nat.max c (finish_at t)) 0 (as_completed tasks)
  ∧ cancelled g = []
  ∧ ∃ os, Forall2 (contributes min_length) (as_completed tasks) os
          ∧ valid_responses g = omap id os.
Proof.
  unfold gather. intros Hg.
  destruct (collect min_length 0 [] (as_completed tasks)) as [[clk vr]|e] eqn:Hc; [|done].
  apply collect_returns in Hc as (-> & os & Hos & ->).
  cbn [mbind py_bind] in Hg. unfold wait_remaining in Hg. simpl in Hg.
  rewrite remaining_tasks_empty in Hg.
  destruct (omap id os) as [|c cs] eqn:Hvr; injection Hg as <-; simpl;
    (split; [done|]; split; [done|]; exists os; by rewrite Hvr).
Qed.

Lemma foldl_max_attained (l : list task) (clock : nat) :
  foldl (λ c t, Nat.max c (finish_at t)) clock l = clock
  ∨ ∃ t, t ∈ l ∧ foldl (λ c t, Nat.max c (finish_at t)) clock l = finish_at t.
Proof.
  revert clock. induction l as [|u l IH]; intros clock; simpl; [by left|].
  destruct (IH (Nat.max clock (finish_at u))) as [Heq|(t & Ht & Heq)].
  - rewrite Heq. destruct (Nat.max_spec clock (finish_at u)) as [[_ ->]|[_ ->]].
    + right. exists u. split; [apply elem_of_cons; by left | done].
    + by left.
  - right. exists t. split; [apply elem_of_cons; by right | done].
Qed.

(** X1. Whenever arbitration returns a response, that response is the
    result of one of the dispatched calls, the content recorded for it is
    the message content of that result, its length reaches the minimum,
    and no call produced a longer valid response. This holds with no
    assumption on what the other calls returned. *)
Theorem arbitrate_winner_is_valid (min_length : Z) (tasks : list task) (best : candidate) :
  arbitrate min_length tasks = Return best →
  (∃ t, t ∈ tasks ∧ outcome t = Return (Some (cand_result best)))
  ∧ message_content (cand_result best) = Return (cand_content best)
  ∧ py_len (cand_content best) = Return (token_count best)
  ∧ (min_length ≤ Z.of_nat (token_count best))%Z
  ∧ ∀ t c, t ∈ tasks → candidate_of min_length t = Return (Some c) →
      token_count c ≤ token_count best.
Proof.
  unfold arbitrate. intros Harb.
  destruct (gather min_length tasks) as [g|e] eqn:Hg; [|done].
  apply gather_returns in Hg as (_ & _ & os & Hos & Hvr).
  cbn [mbind py_bind] in Harb. rewrite Hvr in Harb.
  pose proof (py_max_omap os) as Hmax.
  destruct (py_max token_count (omap id os)) as [b|]; [|done].
  injection Harb as ->. destruct Hmax as (i & Hi & Hmax).
  destruct (Forall2_lookup_r _ _ _ _ _ Hos Hi) as (u & Hu & [Hc|[_ [=]]]).
  destruct (candidate_of_Some _ _ _ Hc) as (Hout & _ & Hlen & Hmin).
  split.
  { exists u. split; [|done]. rewrite <- as_completed_perm.
    by eapply list_elem_of_lookup_2. }
  split; [by eapply candidate_of_content|]. split; [done|]. split; [done|].
  intros t c Ht Htc. rewrite <- as_completed_perm in Ht.
  apply list_elem_of_lookup in Ht as [j Hj].
  destruct (Forall2_lookup_l _ _ _ _ _ Hos Hj) as (o & Ho & [Hc'|[Hcancel ->]]).
  - apply (Hmax j c). congruence.
  - unfold candidate_of in Htc. by rewrite Hcancel in Htc.
Qed.

Lemma arbitrate_winner_is_valid_witness :
  arbitrate 5 sample_tasks
  = Return (Candidate (completion "a much longer answer") (JStr "a much longer answer") 20)
  ∧ (∃ t, t ∈ sample_tasks
          ∧ outcome t = Return (Some (completion "a much longer answer")))
  ∧ message_content (completion "a much longer answer")
    = Return (JStr "a much longer answer")
  ∧ py_len (JStr "a much longer answer") = Return 20
  ∧ (5 ≤ Z.of_nat 20)%Z
  ∧ ∀ t c, t ∈ sample_tasks → candidate_of 5 t = Return (Some c) → token_count c ≤ 20.
Proof.
  assert (arbitrate 5 sample_tasks
          = Return (Candidate (completion "a much longer answer")
                              (JStr "a much longer answer") 20)) as H1.
  { vm_compute. reflexivity. }
  split; [exact H1|].
  exact (arbitrate_winner_is_valid 5 sample_tasks _ H1).
Defined.

(** X2. Whenever the block of the two loops ends normally, it ends at the
    completion of the slowest dispatched call, however early a valid
    response came in, and it has cancelled no call. *)
Theorem gather_waits_for_slowest_call (min_length : Z) (tasks : list task) (g : gathered) :
  gather min_length tasks = Return g →
  cancelled g = []
  ∧ (∀ t, t ∈ tasks → finish_at t ≤ clock g)
  ∧ (tasks ≠ [] → ∃ t, t ∈ tasks ∧ clock g = finish_at t).
Proof.
  intros (Hclock & Hcancel & _)%gather_returns. split; [done|]. rewrite Hclock. split.
  - intros t Ht. apply foldl_max_ge. by rewrite as_completed_perm.
  - intros Hne.
    destruct (foldl_max_attained (as_completed tasks) 0) as [Hz|(t & Ht & Heq)].
    + destruct tasks as [|t tasks]; [done|]. exists t.
      split; [apply elem_of_cons; by left|]. rewrite Hz.
      assert (finish_at t ≤ 0); [|lia]. rewrite <- Hz.
      apply foldl_max_ge. rewrite as_completed_perm. apply elem_of_cons. by left.
    + exists t. split; [by rewrite <- as_completed_perm | done].
Qed.

Lemma gather_waits_for_slowest_call_witness :
  gather 5 early_and_late
  = Return (Gathered
              [ Candidate (completion "short answer") (JStr "short answer") 12;
                Candidate (completion "a much longer answer")
                          (JStr "a much longer answer") 20 ]
              100 [])
  ∧ @nil task = []
  ∧ (∀ t, t ∈ early_and_late → finish_at t ≤ 100)
  ∧ (early_and_late ≠ [] → ∃ t, t ∈ early_and_late ∧ 100 = finish_at t).
Proof.
  assert (gather 5 early_and_late
          = Return (Gathered
              [ Candidate (completion "short answer") (JStr "short answer") 12;
                Candidate (completion "a much longer answer")
                          (JStr "a much longer answer") 20 ]
              100 [])) as H1.
  { vm_compute. reflexivity. }
  split; [exact H1|].
  exact (gather_waits_for_slowest_call 5 early_and_late _ H1).
Defined.

(** ** The handler as a whole *)

Lemma plain_bind {A B} (m : py A) (f : A → py B) :
  plain m → (∀ a, plain (f a)) → plain (m ≫= f).
Proof. destruct m; simpl; auto. Qed.

Lemma plain_fmap {A B} (m : py A) (f : A → B) : plain m → plain (f <$> m).
Proof. destruct m; simpl; auto. Qed.

Lemma plain_py_in k j : plain (py_in k j).
Proof. by destruct j. Qed.

Lemma plain_py_getitem j k : plain (py_getitem j k).
Proof. destruct j; simpl; try done. by destruct (_ !! _). Qed.

Lemma plain_py_index j i : plain (py_index j i).
Proof. destruct j; simpl; try done; by case_match. Qed.

Lemma plain_py_get j k d : plain (py_get j k d).
Proof. by destruct j. Qed.

Lemma plain_py_len j : plain (py_len j).
Proof. by destruct j. Qed.

Create HintDb plain.
#[local] Hint Resolve plain_py_in plain_py_getitem plain_py_index plain_py_get plain_py_len
  plain_bind plain_fmap : plain.
#[local] Hint Extern 0 (plain (Return _)) => exact I : plain.
#[local] Hint Extern 2 (plain (if ?b then _ else _)) => destruct b : plain.

Lemma plain_consider min_length vr result : plain (consider min_length vr result).
Proof.
  destruct result as [r|]; [|exact I]. unfold consider. eauto 30 with plain.
Qed.

Lemma plain_stream_response_content now result content :
  plain (stream_response_content now result content).
Proof. unfold stream_response_content. eauto 10 with plain. Qed.

(** When every task returns, the first loop raises nothing but what the
    reading of a result raises. *)
Lemma plain_collect min_length arrivals :
  Forall (λ t, ∃ r, outcome t = Return r) arrivals →
  ∀ clock vr, plain (collect min_length clock vr arrivals).
Proof.
  induction 1 as [|t arrivals [r Hr] _ IH]; intros clock vr; [exact I|].
  cbn [collect]. rewrite Hr. cbn [mbind py_bind].
  pose proof (plain_consider min_length vr r) as Hp.
  destruct (consider min_length vr r) as [vr'|e]; simpl; [apply IH|].
  destruct Hp as [He Hh]. destruct e; simpl in *; done.
Qed.

(** Arbitration over tasks that all return: a candidate, the 503 error,
    or an exception met while a result was read. *)
Lemma arbitrate_outcomes min_length tasks :
  (∀ t, t ∈ tasks → ∃ r, outcome t = Return r) →
  match arbitrate min_length tasks with
  | Return _ => True
  | Raise e =>
      e = HTTPException 503 "所有上游API请求均失败"
      ∨ (is_Exception e = true ∧ is_HTTPException e = false)
  end.
Proof.
  intros Hall. unfold arbitrate.
  assert (plain (gather min_length tasks)) as Hp.
  { unfold gather.
    assert (Forall (λ t, ∃ r, outcome t = Return r) (as_completed tasks)) as Hf.
    { apply Forall_forall. intros t Ht. apply Hall. by rewrite <- as_completed_perm. }
    pose proof (plain_collect min_length _ Hf 0 []) as Hc.
    destruct (collect min_length 0 [] (as_completed tasks)) as [[clk vr]|e] eqn:Hcol;
      [|exact Hc].
    apply collect_returns in Hcol as (-> & _). cbn [mbind py_bind].
    unfold wait_remaining. simpl. rewrite remaining_tasks_empty. by destruct vr. }
  destruct (gather min_length tasks) as [g|e]; simpl; [|by right].
  destruct (py_max token_count (valid_responses g)); [done | by left].
Qed.

(** A response returned by arbitration is the candidate of one of the
    tasks. *)
Lemma arbitrate_winner_from_task min_length tasks b :
  arbitrate min_length tasks = Return b →
  ∃ t, t ∈ tasks ∧ candidate_of min_length t = Return (Some b).
Proof.
  unfold arbitrate. intros Harb.
  destruct (gather min_length tasks) as [g|e] eqn:Hg; [|done].
  apply gather_returns in Hg as (_ & _ & os & Hos & Hvr).
  cbn [mbind py_bind] in Harb. rewrite Hvr in Harb.
  pose proof (py_max_omap os) as Hmax.
  destruct (py_max token_count (omap id os)) as [b'|]; [|done].
  injection Harb as ->. destruct Hmax as (i & Hi & _).
  destruct (Forall2_lookup_r _ _ _ _ _ Hos Hi) as (u & Hu & [Hc|[_ [=]]]).
  exists u. split; [|done]. rewrite <- as_completed_perm.
  by eapply list_elem_of_lookup_2.
Qed.

Lemma arbitrate_winner_valid_result min_length tasks b :
  arbitrate min_length tasks = Return b →
  (∃ m, cand_result b = JObj m) ∧ message_content (cand_result b) = Return (cand_content b).
Proof.
  intros (t & _ & Hc)%arbitrate_winner_from_task. split.
  - by destruct (candidate_of_Some _ _ _ Hc) as (_ & ? & _).
  - by eapply candidate_of_content.
Qed.

Section handler_facts.
Variable loads : string → option json.
Variable now : Z.
Variable exn_text : exn → string.
Variable net : nat → upstream_call → nat * post_result.
Variable renders : json → bool.

(** Every launched task returns: [send_single_request] raises nothing. *)
Lemma launch_outcomes cfg request_data keys t :
  t ∈ launch loads now net cfg request_data keys → ∃ r, outcome t = Return r.
Proof.
  intros [i Hi]%list_elem_of_lookup. unfold launch in Hi.
  rewrite list_lookup_imap in Hi.
  destruct (keys !! i) as [key|]; simpl in Hi; [|done].
  injection Hi as <-. simpl. rewrite send_single_request_unfold.
  destruct (net i _).2 as [|status text]; [by eexists|].
  destruct (handle_response loads now status text); by eexists.
Qed.

Lemma check_authorization_outcomes server_config header :
  check_authorization server_config header = Return ()
  ∨ (∃ detail, check_authorization server_config header = Raise (HTTPException 401 detail))
  ∨ check_authorization server_config header = Raise IndexError.
Proof.
  unfold check_authorization. destruct header as [h|]; [|right; left; by eexists].
  destruct (String.eqb h "" || negb (String.prefix "Bearer " h));
    [right; left; by eexists|].
  destruct (split " " h !! 1) as [k|]; [|by right; right].
  destruct (String.eqb k "" || negb (String.eqb k (api_key server_config)));
    [right; left; by eexists | by left].
Qed.

(** What the handler did with the rotation and the network, by the fate
    of the authorization check. *)
Lemma chat_completions_proxy_effects (w : world) (header : option string) (stream : bool)
    (request_data : gmap string json) :
  let s := chat_completions_proxy loads now exn_text net renders w header stream request_data in
  match check_authorization (memory w) header with
  | Return _ =>
      world_end s = world_after (get_current_api_keys w)
      ∧ upstream_calls s
        = (λ key, prepare_call (disk w) key request_data)
            <$> List.filter valid_key (group_in_turn w)
  | Raise _ => world_end s = w ∧ upstream_calls s = []
  end.
Proof.
  unfold chat_completions_proxy.
  destruct (check_authorization (memory w) header) as [[]|e]; [|done].
  pose proof (get_current_api_keys_keys w) as Hkeys. fold (group_in_turn w) in Hkeys.
  assert (memory (world_after (get_current_api_keys w)) = disk w) as Hmem.
  { unfold get_current_api_keys, force_reload_config; simpl.
    by destruct (current_group_index w =? 0)%Z. }
  destruct stream; simpl; unfold generate_fake_stream_response;
    destruct (valid_keys (get_current_api_keys w)) as [|k ks] eqn:Hk; simpl;
    rewrite <- Hkeys; (split; [done|]); try done;
    unfold calls_of; by rewrite Hmem.
Qed.

(** X3. Whatever the request, every upstream call the handler issues
    carries, as bearer token, a key of the group whose turn it is in the
    configuration file as it stands at that moment, a key that is longer
    than ten characters and does not start with ["YOUR_"]; all calls go
    to the same URL with the same cleaned body, and there are no more
    calls than the group has keys. *)
Theorem upstream_calls_use_valid_keys (w : world) (header : option string) (stream : bool)
    (request_data : gmap string json) :
  let s := chat_completions_proxy loads now exn_text net renders w header stream request_data in
  length (upstream_calls s) ≤ length (group_in_turn w)
  ∧ ∀ c, c ∈ upstream_calls s →
      ∃ key, key ∈ group_in_turn w
        ∧ 10 < String.length key
        ∧ String.prefix "YOUR_" key = false
        ∧ call_authorization c = "Bearer " +:+ key
        ∧ call_url c = base_url (disk w) +:+ "/openai/chat/completions"
        ∧ call_json c = clean_request_data request_data
        ∧ call_timeout c = request_timeout (disk w).
Proof.
  intros s. pose proof (chat_completions_proxy_effects w header stream request_data) as H.
  fold s in H. simpl in H.
  destruct (check_authorization (memory w) header) as [[]|e]; destruct H as [_ ->].
  2:{ split; [simpl; lia|]. intros c Hc. by apply elem_of_nil in Hc. }
  split.
  - rewrite length_fmap. apply List.filter_length_le.
  - intros c (key & -> & Hkey)%list_elem_of_fmap.
    apply list_elem_of_In, List.filter_In in Hkey as [Hin Hvalid].
    exists key. split; [by apply list_elem_of_In|].
    unfold valid_key in Hvalid.
    apply andb_true_iff in Hvalid as [[_ Hyour]%andb_true_iff Hlen].
    apply Nat.ltb_lt in Hlen. apply negb_true_iff in Hyour. done.
Qed.

(** X4. Every request that passes the authorization check moves the
    rotation on by one group and leaves the reloaded configuration in
    memory, whatever becomes of the request. In particular, when the group
    in turn has no valid key the request is answered with the 500 error
    and no upstream call, and the turn is used up all the same. *)
Theorem authorized_request_rotates (w : world) (header : option string) (stream : bool)
    (request_data : gmap string json) :
  check_authorization (memory w) header = Return () →
  let s := chat_completions_proxy loads now exn_text net renders w header stream request_data in
  world_end s
  = World (if bool_decide (current_group_index w = 0%Z) then 1%Z else 0%Z) (disk w) (disk w)
  ∧ (List.filter valid_key (group_in_turn w) = [] →
     upstream_calls s = []
     ∧ ∃ detail, reply s = Raise (HTTPException 500 detail)).
Proof.
  intros Hauth s.
  pose proof (chat_completions_proxy_effects w header stream request_data) as H.
  fold s in H. simpl in H. rewrite Hauth in H. destruct H as [Hw Hcalls]. split.
  - rewrite Hw. unfold get_current_api_keys, force_reload_config; simpl.
    case_bool_decide as Hz.
    + rewrite Hz. reflexivity.
    + destruct (Z.eqb_spec (current_group_index w) 0); [contradiction | reflexivity].
  - intros Hempty. rewrite Hcalls, Hempty. split; [done|].
    pose proof (get_current_api_keys_keys w) as Hkeys. fold (group_in_turn w) in Hkeys.
    rewrite Hempty in Hkeys.
    subst s. unfold chat_completions_proxy. rewrite Hauth.
    destruct stream; simpl; unfold generate_fake_stream_response; rewrite Hkeys;
      by eexists.
Qed.

(** X5. The handler raises nothing but HTTP errors: the client is given
    a response, or an HTTP error whose status is 401 (only when the
    authorization check fails), 500 or 503. A JSON response is one whose
    content could be rendered. A streaming response, once returned,
    either runs to the sentinel or is cut short by an exception of its
    generator before the first event, when the content of the winner is
    a non-empty dict: that exception, raised after the status line has
    gone out, is the only one that leaves the cited code. *)
Theorem reply_is_response_or_http_error (w : world) (header : option string)
    (stream : bool) (request_data : gmap string json) :
  let sel := get_current_api_keys w in
  let tasks := launch loads now net (memory (world_after sel)) request_data
                      (valid_keys sel) in
  let s := chat_completions_proxy loads now exn_text net renders w header stream
             request_data in
  ((∃ r, reply s = Return r)
   ∨ (∃ detail, reply s = Raise (HTTPException 401 detail)
                ∧ check_authorization (memory w) header ≠ Return ())
   ∨ (∃ detail, reply s = Raise (HTTPException 500 detail))
   ∨ (∃ detail, reply s = Raise (HTTPException 503 detail)))
  ∧ (∀ content, reply s = Return (JSONResponse content) →
       stream = false ∧ renders content = true)
  ∧ (∀ body, reply s = Return (Streaming body) →
       stream = true
       ∧ ((aborted body = None ∧ last (events body) = Some SSEDone)
          ∨ (events body = [] ∧ is_Some (aborted body)
             ∧ ∃ best m,
                 arbitrate (min_response_length (memory (world_after sel))) tasks
                 = Return best
                 ∧ cand_content best = JObj m ∧ size m ≠ 0))).
Proof.
  intros sel tasks0 s. subst sel tasks0 s.
  destruct (check_authorization_outcomes (memory w) header) as [Hauth|[[d Hauth]|Hauth]].
  2:{ unfold chat_completions_proxy. rewrite Hauth. simpl.
      split; [|split; intros ? [=]]. right; left. exists d. split; [done|]. by intros [=]. }
  2:{ unfold chat_completions_proxy. rewrite Hauth. simpl.
      split; [|split; intros ? [=]]. right; right; left. by eexists. }
  destruct (valid_keys (get_current_api_keys w)) as [|k ks] eqn:Hk.
  { unfold chat_completions_proxy. rewrite Hauth.
    destruct stream; simpl; unfold generate_fake_stream_response; rewrite Hk; simpl;
      (split; [|split; intros ? [=]]); right; right; left; by eexists. }
  rewrite chat_completions_proxy_authorized by (done || by rewrite Hk). simpl.
  set (tasks := launch _ _ _ _ _ _).
  assert (∀ min_length,
            match arbitrate min_length tasks with
            | Return _ => True
            | Raise e => e = HTTPException 503 "所有上游API请求均失败"
                         ∨ (is_Exception e = true ∧ is_HTTPException e = false)
            end) as Harb.
  { intros min_length. apply arbitrate_outcomes. intros t Ht.
    by eapply launch_outcomes. }
  destruct stream.
  - specialize (Harb (min_response_length (memory (world_after (get_current_api_keys w))))).
    destruct (arbitrate _ tasks) as [b|e] eqn:Hb; simpl.
    + destruct (arbitrate_winner_valid_result _ _ _ Hb) as [[m Hm] _].
      destruct (arbitrate_winner_from_task _ _ _ Hb) as (t & _ & Ht).
      destruct (candidate_of_Some _ _ _ Ht) as (_ & _ & Hlen & _).
      unfold stream_response_content. rewrite Hm. simpl.
      split; [left; by eexists|]. split; [intros ? [=]|].
      intros body [= <-]. split; [done|].
      destruct (generate_stream_outcome (default (JStr ("chatcmpl-" +:+ pretty now)) (m !! "id"))
                  (default (JInt now) (m !! "created"))
                  (default (JStr "gemini-2.5-flash") (m !! "model"))
                  (cand_content b) _ Hlen) as [?|(? & ? & m' & ? & ?)]; [by left|].
      right. split; [done|]. split; [done|]. exists b, m'. rewrite <- Hk. by split.
    + split; [|split; destruct Harb as [->|[He Hh]]; unfold internal_error; simpl;
                 rewrite ?He, ?Hh; intros ? [=]].
      destruct Harb as [->|[He Hh]].
      * right; right; right. by eexists.
      * right; right; left. unfold internal_error; simpl. rewrite He, Hh. by eexists.
  - specialize (Harb (min_response_length (memory w))).
    destruct (arbitrate _ tasks) as [b|e]; simpl.
    + unfold json_response. destruct (renders (cand_result b)) eqn:Hr; simpl.
      * split; [left; by eexists|]. split; [by intros ? [= <-] | intros ? [=]].
      * split; [|split; intros ? [=]]. right; right; left. by eexists.
    + split; [|split; destruct Harb as [->|[He Hh]]; unfold internal_error; simpl;
                 rewrite ?He, ?Hh; intros ? [=]].
      destruct Harb as [->|[He Hh]].
      * right; right; right. by eexists.
      * right; right; left. unfold internal_error; simpl. rewrite He, Hh. by eexists.
Qed.

(** X6. When the minimum length in memory is the one in the configuration
    file, the two paths of the handler agree on every request, but for
    the rendering of the winner: if the non-streaming path returns a
    response, the streaming path returns the stream made of the message
    content of that same response; if the streaming path fails with an
    HTTP error the non-streaming path fails with the same status; and if
    the non-streaming path fails with an HTTP error, either the streaming
    path fails with the same status, or the status is 500 because the
    winner could not be rendered as JSON, and the streaming path, which
    renders nothing in advance, streams its content. *)
Theorem streaming_agrees_with_plain (w : world) (header : option string)
    (request_data : gmap string json) :
  min_response_length (memory w) = min_response_length (disk w) →
  let plain_reply :=
    reply (chat_completions_proxy loads now exn_text net renders w header false
             request_data) in
  let stream_reply :=
    reply (chat_completions_proxy loads now exn_text net renders w header true
             request_data) in
  (∀ r, plain_reply = Return r →
     ∃ result content,
       r = JSONResponse result
       ∧ renders result = true
       ∧ message_content result = Return content
       ∧ ∃ body, stream_response_content now result content = Return body
                 ∧ stream_reply = Return (Streaming body))
  ∧ (∀ status detail, stream_reply = Raise (HTTPException status detail) →
       ∃ detail', plain_reply = Raise (HTTPException status detail'))
  ∧ (∀ status detail, plain_reply = Raise (HTTPException status detail) →
       (∃ detail', stream_reply = Raise (HTTPException status detail'))
       ∨ (status = 500%Z
          ∧ ∃ result content body,
              renders result = false
              ∧ message_content result = Return content
              ∧ stream_response_content now result content = Return body
              ∧ stream_reply = Return (Streaming body))).
Proof.
  intros Hmin plain_reply stream_reply. subst plain_reply stream_reply.
  destruct (check_authorization (memory w) header) as [[]|e] eqn:Hauth.
  2:{ unfold chat_completions_proxy. rewrite Hauth. simpl.
      split; [|split; [by eauto|by eauto]].
      intros r Hr. unfold internal_error in Hr. simpl in Hr.
      destruct (is_Exception e); [destruct (is_HTTPException e)|]; done. }
  destruct (valid_keys (get_current_api_keys w)) as [|k ks] eqn:Hk.
  { unfold chat_completions_proxy. rewrite Hauth. simpl.
    unfold generate_fake_stream_response. rewrite Hk. simpl.
    split; [done|]. split.
    - intros status detail [= <- <-]. by eexists.
    - intros status detail [= <- <-]. left. by eexists. }
  rewrite !chat_completions_proxy_authorized by (done || by rewrite Hk). simpl.
  assert (memory (world_after (get_current_api_keys w)) = disk w) as Hmem.
  { unfold get_current_api_keys, force_reload_config; simpl.
    by destruct (current_group_index w =? 0)%Z. }
  rewrite Hmem, <- Hmin.
  set (tasks := launch _ _ _ _ _ _).
  destruct (arbitrate (min_response_length (memory w)) tasks) as [b|e] eqn:Harb; simpl.
  - apply arbitrate_winner_valid_result in Harb as ([m Hm] & Hcontent).
    assert (stream_response_content now (cand_result b) (cand_content b)
            = Return (generate_stream
                        (default (JStr ("chatcmpl-" +:+ pretty now)) (m !! "id"))
                        (default (JInt now) (m !! "created"))
                        (default (JStr "gemini-2.5-flash") (m !! "model"))
                        (cand_content b))) as Hstream.
    { unfold stream_response_content. by rewrite Hm. }
    rewrite Hstream. simpl. unfold json_response.
    destruct (renders (cand_result b)) eqn:Hr; simpl.
    + split; [|split; intros ?? [=]].
      intros r [= <-]. exists (cand_result b), (cand_content b).
      split; [done|]. split; [done|]. split; [done|]. eexists. by split.
    + split; [intros ? [=]|]. split; [intros ?? [=]|].
      intros status detail [= <- <-]. right. split; [done|].
      exists (cand_result b), (cand_content b). eexists. by repeat split.
  - split; [by destruct e|]. split.
    + intros status detail He. rewrite He. by eexists.
    + intros status detail He. left. rewrite He. by eexists.
Qed.

End handler_facts.


Lemma authorized_request_rotates_witness :
  check_authorization (memory (World 0 sample_config sample_config)) (Some "Bearer 123")
  = Return ()
  ∧ world_end (chat_completions_proxy sample_loads 0 (λ _, "error") dead_net json_finite
                 (World 0 sample_config sample_config) (Some "Bearer 123") false ∅)
    = World (if bool_decide (0 = 0)%Z then 1%Z else 0%Z) sample_config sample_config
  ∧ (List.filter valid_key (group_in_turn (World 0 sample_config sample_config)) = [] →
     upstream_calls (chat_completions_proxy sample_loads 0 (λ _, "error") dead_net json_finite
                       (World 0 sample_config sample_config) (Some "Bearer 123") false ∅)
     = []
     ∧ ∃ detail,
         reply (chat_completions_proxy sample_loads 0 (λ _, "error") dead_net json_finite
                  (World 0 sample_config sample_config) (Some "Bearer 123") false ∅)
         = Raise (HTTPException 500 detail)).
Proof.
  assert (check_authorization (memory (World 0 sample_config sample_config))
            (Some "Bearer 123") = Return ()) as H1.
  { vm_compute. reflexivity. }
  split; [exact H1|].
  exact (authorized_request_rotates sample_loads 0 (λ _, "error") dead_net json_finite
           (World 0 sample_config sample_config) (Some "Bearer 123") false ∅ H1).
Defined.

(** The turn is used up by a request that finds no valid key: the group
    in turn holds only a placeholder, the request fails with 500, and the
    next request goes to the other group. *)
Example placeholder_group_uses_a_turn :
  let cfg := Config "123" 5 120 ["YOUR_API_KEY_HERE"] ["AIzaSy-credential-B"] "u" in
  let first := chat_completions_proxy sample_loads 0 (λ _, "error") answering_net json_finite
                 (World 0 cfg cfg) (Some "Bearer 123") false ∅ in
  let second := chat_completions_proxy sample_loads 0 (λ _, "error") answering_net json_finite
                  (world_end first) (Some "Bearer 123") false ∅ in
  reply first = Raise (HTTPException 500 "服务器未配置有效的API密钥")
  ∧ upstream_calls first = []
  ∧ call_authorization <$> upstream_calls second = ["Bearer AIzaSy-credential-B"]
  ∧ reply second = Return (JSONResponse (completion "short answer")).
Proof. vm_compute. done. Qed.

Lemma streaming_agrees_with_plain_witness :
  min_response_length (memory (World 0 answering_config answering_config))
  = min_response_length (disk (World 0 answering_config answering_config))
  ∧ (∀ r,
       reply (chat_completions_proxy sample_loads 0 (λ _, "error") answering_net json_finite
                (World 0 answering_config answering_config) (Some "Bearer 123") false ∅)
       = Return r →
       ∃ result content,
         r = JSONResponse result
         ∧ json_finite result = true
         ∧ message_content result = Return content
         ∧ ∃ body, stream_response_content 0 result content = Return body
                   ∧ reply (chat_completions_proxy sample_loads 0 (λ _, "error")
                              answering_net json_finite
                              (World 0 answering_config answering_config)
                              (Some "Bearer 123") true ∅)
                     = Return (Streaming body))
  ∧ (∀ status detail,
       reply (chat_completions_proxy sample_loads 0 (λ _, "error") answering_net json_finite
                (World 0 answering_config answering_config) (Some "Bearer 123") true ∅)
       = Raise (HTTPException status detail) →
       ∃ detail',
         reply (chat_completions_proxy sample_loads 0 (λ _, "error") answering_net json_finite
                  (World 0 answering_config answering_config) (Some "Bearer 123") false ∅)
         = Raise (HTTPException status detail'))
  ∧ (∀ status detail,
       reply (chat_completions_proxy sample_loads 0 (λ _, "error") answering_net json_finite
                (World 0 answering_config answering_config) (Some "Bearer 123") false ∅)
       = Raise (HTTPException status detail) →
       (∃ detail',
          reply (chat_completions_proxy sample_loads 0 (λ _, "error") answering_net
                   json_finite (World 0 answering_config answering_config)
                   (Some "Bearer 123") true ∅)
          = Raise (HTTPException status detail'))
       ∨ (status = 500%Z
          ∧ ∃ result content body,
              json_finite result = false
              ∧ message_content result = Return content
              ∧ stream_response_content 0 result content = Return body
              ∧ reply (chat_completions_proxy sample_loads 0 (λ _, "error") answering_net
                         json_finite (World 0 answering_config answering_config)
                         (Some "Bearer 123") true ∅)
                = Return (Streaming body))).
Proof.
  split; [reflexivity|].
  exact (streaming_agrees_with_plain sample_loads 0 (λ _, "error") answering_net json_finite
           (World 0 answering_config answering_config) (Some "Bearer 123") ∅ eq_refl).
Defined.

(** The sample request answered on both paths: the stream carries the
    twelve characters of the plain response, one per chunk. *)
Example both_paths_on_sample_request :
  reply (chat_completions_proxy sample_loads 0 (λ _, "error") answering_net json_finite
           (World 0 answering_config answering_config) (Some "Bearer 123") false ∅)
  = Return (JSONResponse (completion "short answer"))
  ∧ (λ r, match r with
          | Streaming body => omap delta_content (events body)
          | JSONResponse _ => []
          end)
      <$> reply (chat_completions_proxy sample_loads 0 (λ _, "error") answering_net json_finite
                   (World 0 answering_config answering_config) (Some "Bearer 123") true ∅)
    = Return (JStr <$> ["s"; "h"; "o"; "r"; "t"; " "; "a"; "n"; "s"; "w"; "e"; "r"]).
Proof. split; vm_compute; reflexivity. Qed.

(** An upstream answer that holds an infinity: the non-streaming path
    cannot render it and answers 500, the streaming path streams its
    content. *)
Example infinity_is_500_but_streams :
  reply (chat_completions_proxy loads_infinity 0 (λ _, "error") answering_net json_finite
           (World 0 answering_config answering_config) (Some "Bearer 123") false ∅)
  = Raise (HTTPException 500 "服务器内部错误: error")
  ∧ (λ r, match r with
          | Streaming body => (length (events body), aborted body)
          | JSONResponse _ => (0, None)
          end)
      <$> reply (chat_completions_proxy loads_infinity 0 (λ _, "error") answering_net
                   json_finite (World 0 answering_config answering_config)
                   (Some "Bearer 123") true ∅)
    = Return (14, None).
Proof. split; vm_compute; reflexivity. Qed.

(** An upstream answer whose content is a dict of two entries, against
    a minimum length of 2: the streaming path returns a response whose
    generator raises before the first event. *)
Example dict_content_aborts_the_stream :
  reply (chat_completions_proxy loads_dict 0 (λ _, "error") answering_net json_finite
           (World 0 lenient_config lenient_config) (Some "Bearer 123") true ∅)
  = Return (Streaming (StreamingResponse [] (Some TypeError))).
Proof. vm_compute. reflexivity. Qed.


(** ** The event stream read by [send_single_request] *)

Lemma append_empty_r (s : string) : s +:+ "" = s.
Proof.
  induction s as [|a s IH]; [done|].
  change (String a (s +:+ "") = String a s). by rewrite IH.
Qed.

Lemma append_assoc (s1 s2 s3 : string) : (s1 +:+ s2) +:+ s3 = s1 +:+ (s2 +:+ s3).
Proof.
  induction s1 as [|a s1 IH]; [done|].
  change (String a ((s1 +:+ s2) +:+ s3) = String a (s1 +:+ (s2 +:+ s3))). by rewrite IH.
Qed.

Lemma take_field_obj (m : gmap string json) (k : string) (var : json) :
  take_field (JObj m) k var = Return (default var (m !! k)).
Proof. unfold take_field; simpl. by destruct (m !! k). Qed.

Lemma sse_line_event loads st line ev :
  reads_as loads line (Some ev) → sse_line loads st line = Return (absorb st ev).
Proof.
  intros (Hp & data & Hl & m & first & d & rest & -> & Hch & Hd & Hc & Hid & Hm & Hcr).
  unfold sse_line, json_loads, absorb. rewrite Hp, Hl. simpl. rewrite Hch. simpl.
  rewrite Hd. simpl. rewrite Hc.
  destruct (ev_text ev) as [t|]; simpl;
    rewrite !take_field_obj, Hid, Hm, Hcr; simpl; [done|].
  by rewrite append_empty_r.
Qed.

Lemma sse_line_nothing loads st line :
  reads_as loads line None → sse_line loads st line = Return st.
Proof.
  unfold sse_line, json_loads.
  intros [Hp|[Hl|[Hl|(m & Hl & Hch)]]].
  - by rewrite Hp.
  - rewrite Hl. by destruct (String.prefix "data: " line).
  - rewrite Hl. by destruct (String.prefix "data: " line).
  - rewrite Hl. destruct (String.prefix "data: " line); [|done]. simpl.
    destruct Hch as [->|(c & -> & Hc)]; simpl; [done | by rewrite Hc].
Qed.

(** The loop over the lines is the fold of [absorb] over the events the
    lines read as. *)
Lemma sse_lines_absorb loads lines os :
  Forall2 (reads_as loads) lines os →
  ∀ st, sse_lines loads st lines = Return (foldl absorb st (omap id os)).
Proof.
  induction 1 as [|line o lines os Hline _ IH]; intros st; [done|].
  cbn [sse_lines]. destruct o as [ev|].
  - rewrite (sse_line_event _ _ _ _ Hline). cbn [mbind py_bind]. by rewrite IH.
  - rewrite (sse_line_nothing _ _ _ Hline). cbn [mbind py_bind]. by rewrite IH.
Qed.

Lemma foldl_absorb_content evs st :
  sse_content (foldl absorb st evs)
  = sse_content st +:+ join (default "" <$> (ev_text <$> evs)).
Proof.
  revert st. induction evs as [|ev evs IH]; intros st; simpl.
  - by rewrite append_empty_r.
  - rewrite IH. simpl. by rewrite append_assoc.
Qed.

Lemma foldl_absorb_field (field : delta_event → option json) (get : sse_state → json) evs :
  (∀ st ev, get (absorb st ev) = default (get st) (field ev)) →
  ∀ st, get (foldl absorb st evs) = default (get st) (last (seen field evs)).
Proof.
  intros Hget. unfold seen. induction evs as [|ev evs IH]; intros st; simpl; [done|].
  rewrite IH, Hget. change (list_omap _ _ field evs) with (omap field evs).
  destruct (field ev) as [v|]; simpl; [|done].
  destruct (omap field evs) as [|v' vs]; [done|].
  rewrite last_cons_cons.
  destruct (last (v' :: vs)) eqn:Hlast; [done|]. by apply last_None in Hlast.
Qed.

(** X7. When a 2xx body contains ["data:"] and its lines read as events
    whose texts, put end to end, are not empty, [send_single_request]
    returns a completion object whose message content is exactly those
    texts in line order; lines that are no events (other lines, payloads
    that are not JSON such as the sentinel, objects without choices) add
    nothing, wherever they stand. The identifier, the model and the
    creation time are those of the last event that has one; absent or
    falsy, the identifier and the model get their defaults and the
    creation time is the time of the call. *)
Theorem event_stream_is_normalised (loads : string → option json) (now : Z) (cfg : config)
    (client : upstream_call → post_result) (key : string)
    (request_data : gmap string json) (status : Z) (text : string)
    (os : list (option delta_event)) :
  client (prepare_call cfg key request_data) = Response status text →
  is_success status →
  str_contains "data:" text = true →
  Forall2 (reads_as loads) (split "010"%char (strip text)) os →
  join (default "" <$> (ev_text <$> omap id os)) ≠ "" →
  ∃ result,
    send_single_request loads now cfg client key request_data = Return (Some result)
    ∧ message_content result
      = Return (JStr (join (default "" <$> (ev_text <$> omap id os))))
    ∧ py_getitem result "id"
      = Return (let id := default (JStr "") (last (seen ev_id (omap id os))) in
                if truthy id then id else JStr ("chatcmpl-" +:+ pretty now))
    ∧ py_getitem result "model"
      = Return (let model := default (JStr "") (last (seen ev_model (omap id os))) in
                if truthy model then model else JStr "gemini-2.5-flash")
    ∧ py_getitem result "created"
      = Return (default (JInt now) (last (seen ev_created (omap id os)))).
Proof.
  intros Hclient Hstatus Hdata Hlines Htext.
  rewrite send_single_request_unfold, Hclient.
  unfold handle_response. rewrite raise_for_status_success by done.
  cbn [mbind py_bind]. rewrite Hdata, (sse_lines_absorb _ _ _ Hlines).
  cbn [mbind py_bind].
  set (st := foldl absorb _ _).
  assert (sse_content st = join (default "" <$> (ev_text <$> omap id os))) as Hcontent.
  { unfold st. by rewrite foldl_absorb_content. }
  destruct (String.eqb_spec (sse_content st) "") as [He|_]; [congruence|]. simpl.
  eexists. split; [reflexivity|].
  split; [unfold message_content, completion_of; simpl; by rewrite Hcontent|].
  unfold completion_of; simpl. unfold st.
  rewrite (foldl_absorb_field ev_id final_id) by done.
  rewrite (foldl_absorb_field ev_model final_model) by done.
  rewrite (foldl_absorb_field ev_created final_created) by done.
  done.
Qed.

Lemma event_stream_is_normalised_witness :
  (λ _ : upstream_call, Response 200 sample_stream)
    (prepare_call sample_config "AIzaSy-credential-A" ∅)
  = Response 200 sample_stream
  ∧ is_success 200
  ∧ str_contains "data:" sample_stream = true
  ∧ Forall2 (reads_as sample_stream_loads) (split "010"%char (strip sample_stream))
      [ Some (DeltaEvent (Some "Hel") (Some (JStr "first")) None None);
        Some (DeltaEvent (Some "lo") (Some (JStr "second")) None None);
        None ]
  ∧ "Hello" ≠ ""
  ∧ ∃ result,
      send_single_request sample_stream_loads 7 sample_config
        (λ _, Response 200 sample_stream) "AIzaSy-credential-A" ∅
      = Return (Some result)
      ∧ message_content result = Return (JStr "Hello")
      ∧ py_getitem result "id" = Return (JStr "second")
      ∧ py_getitem result "model" = Return (JStr "gemini-2.5-flash")
      ∧ py_getitem result "created" = Return (JInt 7).
Proof.
  assert (is_success 200) as H2 by (unfold is_success; lia).
  assert (Forall2 (reads_as sample_stream_loads) (split "010"%char (strip sample_stream))
            [ Some (DeltaEvent (Some "Hel") (Some (JStr "first")) None None);
              Some (DeltaEvent (Some "lo") (Some (JStr "second")) None None);
              None ]) as H4.
  { let lines := eval vm_compute in (split "010"%char (strip sample_stream)) in
    change (split "010"%char (strip sample_stream)) with lines.
    constructor; [|constructor; [|constructor; [|constructor]]].
    - split; [reflexivity|]. eexists. split; [reflexivity|].
      exists {[ "id" := JStr "first";
                "choices" := JArr [JObj {[ "delta" := JObj {[ "content" := JStr "Hel" ]} ]}] ]},
             {[ "delta" := JObj {[ "content" := JStr "Hel" ]} ]},
             {[ "content" := JStr "Hel" ]}, [].
      repeat split; vm_compute; reflexivity.
    - split; [reflexivity|]. eexists. split; [reflexivity|].
      exists {[ "id" := JStr "second";
                "choices" := JArr [JObj {[ "delta" := JObj {[ "content" := JStr "lo" ]} ]}] ]},
             {[ "delta" := JObj {[ "content" := JStr "lo" ]} ]},
             {[ "content" := JStr "lo" ]}, [].
      repeat split; vm_compute; reflexivity.
    - right. left. reflexivity. }
  assert ("Hello" ≠ "") as H5 by discriminate.
  split; [reflexivity|]. split; [exact H2|]. split; [reflexivity|].
  split; [exact H4|]. split; [exact H5|].
  exact (event_stream_is_normalised sample_stream_loads 7 sample_config
           (λ _, Response 200 sample_stream) "AIzaSy-credential-A" ∅ 200 sample_stream
           _ eq_refl H2 eq_refl H4 H5).
Defined.


(** ** The size and number of the chunks *)

Lemma length_substring (s : string) (i m : nat) :
  String.length (String.substring i m s) = Nat.min m (String.length s - i).
Proof.
  revert i m. induction s as [|c s IH]; intros i m.
  - destruct i, m; reflexivity.
  - destruct i as [|i]; simpl.
    + destruct m as [|m]; simpl; [done|]. by rewrite IH, Nat.sub_0_r.
    + apply IH.
Qed.

(** The starts [range(i, stop, step)]: all below [stop], and as many as
    it takes to cover the distance in steps of [step]. *)
Lemma range_from_spec (step fuel i stop : nat) :
  1 ≤ step → stop - i ≤ fuel →
  (∀ j, j ∈ range_from fuel i stop step → j < stop)
  ∧ stop - i ≤ length (range_from fuel i stop step) * step
  ∧ length (range_from fuel i stop step) * step < stop - i + step.
Proof.
  intros Hstep. revert i. induction fuel as [|fuel IH]; intros i Hfuel; simpl.
  { split; [intros j Hj; by apply elem_of_nil in Hj | lia]. }
  destruct (Nat.ltb_spec i stop) as [Hlt|Hge].
  - destruct (IH (i + step)) as (H1 & H2 & H3); [lia|]. simpl. split.
    2:{ destruct (Nat.lt_ge_cases (i + step) stop) as [Hin|Hout]; [lia|].
        assert (range_from fuel (i + step) stop step = []) as Hnil.
        { destruct fuel; simpl; [done|].
          by destruct (Nat.ltb_spec (i + step) stop); [lia|]. }
        rewrite Hnil in *. simpl in *. lia. }
    intros j [->|Hj]%elem_of_cons; [done | by apply H1].
  - simpl. split; [intros j Hj; by apply elem_of_nil in Hj | lia].
Qed.

(** X8. A content string of [n] characters is streamed in chunks of
    [max(1, n // 50)] characters, the last one possibly shorter and none
    empty. There are never more than 99 content chunks, at least 50 once
    the content has 50 characters, and exactly one per character below
    100 characters; two more events, the stop chunk and the sentinel, end
    the stream. *)
Theorem chunks_are_bounded (response_id created_time model_name : json) (content : string) :
  let n := String.length content in
  let body := generate_stream response_id created_time model_name (JStr content) in
  aborted body = None
  ∧ length (events body) ≤ 99 + 2
  ∧ (50 ≤ n → 50 + 2 ≤ length (events body))
  ∧ (n < 100 → length (events body) = n + 2)
  ∧ ∀ e c, e ∈ events body → delta_content e = Some c →
      ∃ s, c = JStr s ∧ 1 ≤ String.length s ≤ Nat.max 1 (n / 50).
Proof.
  intros n body. subst body. unfold generate_stream. cbn [py_len]. fold n.
  set (k := Nat.max 1 (n / 50)). rewrite emit_chunks_str. cbn [events aborted].
  rewrite length_app, length_fmap. cbn [length].
  assert (1 ≤ k) as Hk by (unfold k; lia).
  destruct (range_from_spec k n 0 n Hk) as (Hlt & Hcover & Htight); [lia|].
  fold (py_range n k) in Hlt, Hcover, Htight.
  set (L := length (py_range n k)) in *. rewrite Nat.sub_0_r in Hcover, Htight.
  pose proof (Nat.div_mod_eq n 50) as Hdiv.
  pose proof (Nat.mod_upper_bound n 50) as Hmod.
  assert (50 ≤ n → k = n / 50) as Hbig.
  { intros Hn. unfold k. assert (1 ≤ n / 50); [|lia].
    apply Nat.div_le_lower_bound; lia. }
  assert (n < 100 → k = 1) as Hsmall.
  { intros Hn. unfold k. assert (n / 50 ≤ 1); [|lia].
    apply Nat.lt_succ_r, Nat.Div0.div_lt_upper_bound; lia. }
  split; [done|]. split; [|split; [|split]].
  - destruct (Nat.lt_ge_cases n 100) as [Hn|Hn].
    + rewrite (Hsmall Hn) in Htight. lia.
    + rewrite (Hbig ltac:(lia)) in Htight. assert (2 ≤ n / 50).
      { apply Nat.div_le_lower_bound; lia. }
      nia.
  - intros Hn. rewrite (Hbig Hn) in Hcover. nia.
  - intros Hn. rewrite (Hsmall Hn) in Hcover, Htight. lia.
  - intros e c [He|He]%elem_of_app Hc.
    + apply list_elem_of_fmap in He as (i & -> & Hi).
      rewrite delta_content_chunk in Hc. injection Hc as <-.
      eexists. split; [done|]. rewrite length_substring. fold n.
      apply Hlt in Hi. lia.
    + apply elem_of_cons in He as [->|He].
      * by rewrite delta_content_final in Hc.
      * apply elem_of_cons in He as [->|He]; [done | by apply elem_of_nil in He].
Qed.

(** ** The start/stop endpoints *)

(** X9. Over any sequence of requests to the start, stop and status
    endpoints, a start is refused with 400 exactly while the flag is set
    and a stop exactly while it is clear, so the start and stop requests
    that are not refused alternate, the first of them being a stop when
    the flag is set (as it is when the process starts) and a start
    otherwise. The flag at the end is the initial one, flipped once per
    request that was not refused: a start sets the flag even when reading
    the configuration then fails and it is answered with 500. *)
Theorem start_and_stop_alternate (exn_text : exn → string)
    (requests : list admin_request) (running : bool) :
  (∀ k request,
     effective (admin_run exn_text requests running).1 !! k = Some request →
     request ≠ GetStatus ∧ is_stop request = Bool.eqb running (Nat.even k))
  ∧ (admin_run exn_text requests running).2
    = xorb running (Nat.odd (length (effective (admin_run exn_text requests running).1))).
Proof.
  revert running. induction requests as [|rq requests IH]; intros running.
  { split; [done|]. by destruct running. }
  simpl.
  destruct (admin_step exn_text rq running) as [answer running1] eqn:Hstep.
  specialize (IH running1).
  destruct (admin_run exn_text requests running1) as [answers running2].
  simpl in IH |- *. destruct IH as [IHk IHf]. unfold effective in *.
  assert (∀ rq0 : admin_request,
            rq0 ≠ GetStatus → is_stop rq0 = running → running1 = negb running →
            (∀ k request,
               (rq0 :: omap (λ ra : admin_request * py json,
                               match ra.1 with
                               | GetStatus => None
                               | _ => if refused ra.2 then None else Some ra.1
                               end) answers) !! k = Some request →
               request ≠ GetStatus ∧ is_stop request = Bool.eqb running (Nat.even k))
            ∧ running2
              = xorb running
                  (Nat.odd (S (length (omap (λ ra : admin_request * py json,
                                               match ra.1 with
                                               | GetStatus => None
                                               | _ => if refused ra.2 then None else Some ra.1
                                               end) answers))))) as Hflip.
  { intros rq0 Hrq0 Hkind Hrun. split.
    - intros [|k] request Hk; simpl in Hk.
      + injection Hk as <-. split; [done|]. rewrite Hkind. by destruct running.
      + apply IHk in Hk as [Hne ->]. split; [done|].
        rewrite Hrun, Nat.even_succ, <- Nat.negb_even.
        by destruct running, (Nat.even k).
    - rewrite IHf, Hrun, Nat.odd_succ, <- Nat.negb_odd.
      by destruct running, (Nat.odd _). }
  destruct rq as [server_config| |], running; simpl in Hstep; injection Hstep as <- <-;
    cbn [omap list_omap option_bind fst snd refused Z.eqb Pos.eqb mbind];
    try (split; [exact IHk | exact IHf]); try (by apply Hflip).
  assert (refused
            (try_except
               (config ← server_config;
                Return (JObj {[ "success" := JBool true;
                                "url" := JStr ("http://" +:+ config.1 +:+ ":"
                                               +:+ pretty config.2) ]}))
               is_Exception (λ e, Raise (HTTPException 500 (exn_text e)))) = false) as ->.
  { destruct server_config as [config|e]; [done|]. by destruct e. }
  by apply Hflip.
Qed.

(** From the start of the process: a start is refused, a stop is
    accepted, a second stop is refused, a start whose reading of the
    configuration fails is answered 500 and sets the flag all the same,
    so that the next start is refused. *)
Example start_stop_from_load :
  (λ ra : admin_request * py json,
     match ra.2 with
     | Return _ => 200%Z
     | Raise (HTTPException status _) => status
     | Raise _ => 0%Z
     end)
    <$> (admin_run (λ _, "error")
           [PostStart (Return ("127.0.0.1", 5000%Z)); PostStop; PostStop; GetStatus;
            PostStart (Raise KeyError); PostStart (Return ("127.0.0.1", 5000%Z)); PostStop;
            PostStart (Return ("127.0.0.1", 5000%Z))]
           is_api_server_running_at_load).1
  = [400; 200; 400; 200; 500; 400; 200; 200]%Z
  ∧ (admin_run (λ _, "error")
       [PostStart (Return ("127.0.0.1", 5000%Z)); PostStop; PostStop; GetStatus;
        PostStart (Raise KeyError); PostStart (Return ("127.0.0.1", 5000%Z)); PostStop;
        PostStart (Return ("127.0.0.1", 5000%Z))]
       is_api_server_running_at_load).1 !! 7
    = Some (PostStart (Return ("127.0.0.1", 5000%Z)),
            Return (JObj {[ "success" := JBool true;
                            "url" := JStr "http://127.0.0.1:5000" ]})).
Proof. split; vm_compute; reflexivity. Qed.


(** ** The monitor's methods run to their end *)

(** X10. On a monitor whose lock is free, a reset followed by a snapshot
    and a read of the logs runs to its end and frees the lock: every
    counter of the snapshot is zero, its tables are empty, both lists read
    back are empty, whatever the monitor held before; only the capacity
    of the log is kept, and the start time is that of the reset. *)
Theorem reset_clears_everything (now : string) (limit : Z) (m : monitor) :
  run 12 m false
      (reset_monitor_stats now;; s ← get_monitor_stats; l ← get_monitor_logs limit;
       Done (s, l))
  = (Monitor (max_log_entries m) 0 0 0 0 ∅ ∅ ∅ [] [] [] now, false,
     Done (Stats 0 0 0 0 ∅ ∅ now 0 0, ([], []))).
Proof.
  cbn -[filter size last_slice]. unfold snapshot, last_slice; simpl.
  rewrite !map_filter_empty, !map_size_empty.
  destruct (0 <? limit)%Z; by rewrite ?drop_nil.
Qed.


(** ** The lock of the monitor *)

Lemma untouched_at_most_one (m : monitor) : untouched m → at_most_one_request m.
Proof.
  unfold untouched, at_most_one_request.
  intros (H1 & H2 & H3 & H4 & _ & _ & _ & H5 & H6).
  rewrite H1, H2, H3, H4, H5, H6. simpl. lia.
Qed.

Lemma doomed_at_most_one {A} (P : monitor → Prop) (c : co A) (m : monitor) :
  doomed P c → P m → at_most_one_request m.
Proof. intros [] ?; auto. Qed.

Lemma resting_at_rest {A} (c : co A) : resting c → at_rest c = true.
Proof. by destruct c. Qed.

Lemma resting_waits {A} (c : co A) (m : monitor) : resting c → step m true c = None.
Proof. by destruct c. Qed.

(** [record_request] counts one request from an untouched monitor and
    then asks for the lock it holds. *)
Lemma record_request_doomed now format_2f key status_code response_time
    response_length min_length error_msg :
  resting (call (RecordRequest now format_2f key status_code response_time
                               response_length min_length error_msg)).
Proof.
  right. unfold record_request, add_log, with_lock, update.
  destruct ((200 <=? status_code)%Z && (status_code <? 300)%Z);
    destruct ((0 <? response_length)%Z && (response_length <? min_length)%Z);
    destruct error_msg as [msg|]; try destruct (negb (String.eqb msg ""));
    cbn [co_bind mbind co_mbind];
    repeat (match goal with
            | |- doomed _ (Update _ _) => apply doomed_update
            | |- doomed _ (Acquire _) => apply doomed_wait
            end);
    intros m' Hm';
    repeat (match goal with
            | H : ∃ _, _ |- _ => destruct H as (? & ? & ->)
            end);
    match goal with
    | H : untouched ?m |- _ =>
        destruct H as (H1 & H2 & H3 & H4 & _ & _ & _ & H5 & H6);
        unfold at_most_one_request; simpl; rewrite ?H1, ?H2, ?H3, ?H4, ?H5, ?H6; simpl; lia
    end.
Qed.

(** Every method is called outside the critical sections. *)
Lemma call_resting (op : operation) : resting (call op).
Proof.
  destruct op.
  - apply record_request_doomed.
  - left. apply releasing_update; [by intros m Hm | apply releasing_release].
  - left. apply releasing_read. intros m. apply releasing_release.
  - left. apply releasing_read. intros m. apply releasing_release.
  - left. apply releasing_read. intros m. apply releasing_release.
  - left. apply releasing_update; [|apply releasing_release].
    intros m _. by repeat split.
Qed.

Lemma coherent_fresh (capacity : nat) (now : string) : coherent (fresh_system capacity now).
Proof. split; [by repeat split|]. intros j c Hj. by destruct j. Qed.

(** The agreement of the lock and the tasks is an invariant of the event
    loop. *)
Lemma sys_step_coherent (s s' : system) : sys_step s s' → coherent s → coherent s'.
Proof.
  intros Hstep Hs. unfold coherent in *.
  destruct Hstep as [s op|s i c c' m' locked' Hi Hstep]; simpl.
  - destruct (lock_held s).
    + destruct Hs as (i & c & Hi & Hothers & Hown). exists i, c.
      split; [by apply lookup_app_l_Some|]. split; [|done].
      intros j c' [Hj|[_ Hj]]%lookup_app_Some Hne; [eauto|].
      apply list_lookup_singleton_Some in Hj as [_ <-]. apply call_resting.
    + destruct Hs as [Hm Hall]. split; [done|].
      intros j c' [Hj|[_ Hj]]%lookup_app_Some; [eauto|].
      apply list_lookup_singleton_Some in Hj as [_ <-]. apply call_resting.
  - pose proof (lookup_lt_Some _ _ _ Hi) as Hlen.
    destruct (lock_held s).
    + destruct Hs as (i0 & c0 & Hi0 & Hothers & Hown).
      destruct (decide (i = i0)) as [->|Hne].
      2:{ by rewrite (resting_waits _ _ (Hothers i c Hi Hne)) in Hstep. }
      assert (c0 = c) as -> by congruence.
      assert (∀ j c1 x, <[i0:=x]> (running s) !! j = Some c1 → j ≠ i0 → resting c1)
        as Hothers'.
      { intros j c1 x Hj Hne. rewrite list_lookup_insert_ne in Hj by done. eauto. }
      destruct Hown as [[Hrel Hm]|(P & HP & Hd)].
      * destruct Hrel as [a|f k Hf Hk|k Hk]; simpl in Hstep; injection Hstep as <- <- <-.
        -- split; [done|]. intros j c1 Hj. destruct (decide (j = i0)) as [->|Hne]; [|eauto].
           rewrite list_lookup_insert_eq in Hj by done. by injection Hj as <-.
        -- exists i0, k. split; [by apply list_lookup_insert_eq|]. split; [eauto|].
           left. split; [done | by apply Hf].
        -- exists i0, (k (mon s)). split; [by apply list_lookup_insert_eq|].
           split; [eauto|]. left. by split.
      * destruct Hd as [P k HP1|P f k HP1 Hk|P k HP1 Hk]; simpl in Hstep; [done| |];
          injection Hstep as <- <- <-.
        -- exists i0, k. split; [by apply list_lookup_insert_eq|]. split; [eauto|].
           right. exists (λ m', ∃ m, P m ∧ m' = f m). split; [eauto | done].
        -- exists i0, (k (mon s)). split; [by apply list_lookup_insert_eq|].
           split; [eauto|]. right. exists P. by split.
    + destruct Hs as [Hm Hall]. pose proof (Hall i c Hi) as Hc.
      destruct c as [a|k|k|f k|k]; simpl in Hstep, Hc; try done.
      injection Hstep as <- <- <-. exists i, k.
      split; [by apply list_lookup_insert_eq|]. split.
      * intros j c1 Hj Hne. rewrite list_lookup_insert_ne in Hj by done. eauto.
      * destruct Hc as [Hrel|Hd]; [left | right; exists untouched]; by split.
Qed.

Lemma reachable_coherent (capacity : nat) (now : string) (s : system) :
  rtc sys_step (fresh_system capacity now) s → coherent s.
Proof.
  revert s. apply rtc_ind_r; [apply coherent_fresh|].
  intros s s' _ Hstep IH. by eapply sys_step_coherent.
Qed.

Lemma advance_reachable (i : nat) (s : system) : rtc sys_step s (advance i s).
Proof.
  unfold advance. destruct (running s !! i) as [c|] eqn:Hi; [|apply rtc_refl].
  destruct (step (mon s) (lock_held s) c) as [[[m' locked'] c']|] eqn:Hstep;
    [|apply rtc_refl].
  apply rtc_once. by eapply step_task.
Qed.

Lemma sample_recording_reachable : rtc sys_step (fresh_system 1000 "t0") sample_recording.
Proof.
  eapply rtc_l; [apply step_call|]. unfold sample_recording.
  etrans; [apply (advance_reachable 0)|]. apply advance_reachable.
Qed.

(** X11. The lock gives mutual exclusion, however the calls of the
    monitor's methods interleave: a task that is inside a critical section
    (it has taken the lock and has neither returned nor come to another
    [async with self._lock]) is there only while the lock is taken, and no
    two tasks are inside at the same time. *)
Theorem lock_gives_mutual_exclusion (capacity : nat) (now : string) (s : system) :
  rtc sys_step (fresh_system capacity now) s →
  (∀ i c, running s !! i = Some c → at_rest c = false → lock_held s = true)
  ∧ (∀ i j c c', running s !! i = Some c → running s !! j = Some c' →
       at_rest c = false → at_rest c' = false → i = j).
Proof.
  intros Hs%reachable_coherent. unfold coherent in Hs.
  destruct (lock_held s).
  - destruct Hs as (i0 & c0 & Hi0 & Hothers & _). split; [done|].
    assert (∀ i c, running s !! i = Some c → at_rest c = false → i = i0) as Hin.
    { intros i c Hi Hc. destruct (decide (i = i0)) as [|Hne]; [done|].
      by rewrite (resting_at_rest _ (Hothers i c Hi Hne)) in Hc. }
    intros i j c c' Hi Hj Hc Hc'. rewrite (Hin i c), (Hin j c'); done.
  - destruct Hs as [_ Hall].
    assert (∀ i c, running s !! i = Some c → at_rest c = false → False) as Hin.
    { intros i c Hi Hc. by rewrite (resting_at_rest _ (Hall i c Hi)) in Hc. }
    split; intros; exfalso; eauto.
Qed.

Lemma lock_gives_mutual_exclusion_witness :
  rtc sys_step (fresh_system 1000 "t0") sample_recording
  ∧ (∀ i c, running sample_recording !! i = Some c → at_rest c = false →
       lock_held sample_recording = true)
  ∧ (∀ i j c c', running sample_recording !! i = Some c →
       running sample_recording !! j = Some c' →
       at_rest c = false → at_rest c' = false → i = j).
Proof.
  split; [exact sample_recording_reachable|].
  exact (lock_gives_mutual_exclusion 1000 "t0" sample_recording sample_recording_reachable).
Defined.

(** X12. Because [record_request] never releases the lock, the monitor
    counts at most one request in its lifetime: whatever calls are made
    and however they interleave, [total_requests] is at most 1, the
    successes and failures do not exceed it, at most one response time
    and one error are held; and as long as the lock is free no request
    has been recorded at all. *)
Theorem at_most_one_request_is_recorded (capacity : nat) (now : string) (s : system) :
  rtc sys_step (fresh_system capacity now) s →
  at_most_one_request (mon s) ∧ (lock_held s = false → untouched (mon s)).
Proof.
  intros Hs%reachable_coherent. unfold coherent in Hs.
  destruct (lock_held s).
  - split; [|done]. destruct Hs as (i & c & _ & _ & [[_ Hm]|(P & HP & Hd)]).
    + by apply untouched_at_most_one.
    + by eapply doomed_at_most_one.
  - destruct Hs as [Hm _]. split; [by apply untouched_at_most_one | done].
Qed.

Lemma at_most_one_request_is_recorded_witness :
  rtc sys_step (fresh_system 1000 "t0") sample_recording
  ∧ at_most_one_request (mon sample_recording)
  ∧ (lock_held sample_recording = false → untouched (mon sample_recording)).
Proof.
  split; [exact sample_recording_reachable|].
  exact (at_most_one_request_is_recorded 1000 "t0" sample_recording
           sample_recording_reachable).
Defined.

Lemma sys_step_jammed (s s' : system) :
  sys_step s s' → jammed s →
  jammed s' ∧ ∀ j c, running s' !! j = Some c → returned c = true → running s !! j = Some c.
Proof.
  intros Hstep (Hlock & i0 & c0 & P & Hi0 & HP & Hd & Hothers). unfold jammed.
  destruct Hstep as [s op|s i c c' m' locked' Hi Hstep]; simpl.
  - split.
    + split; [done|]. exists i0, c0, P. split; [by apply lookup_app_l_Some|].
      do 2 (split; [done|]).
      intros j c' [Hj|[_ Hj]]%lookup_app_Some Hne; [eauto|].
      apply list_lookup_singleton_Some in Hj as [_ <-]. apply call_resting.
    + intros j c [Hj|[_ Hj]]%lookup_app_Some Hret; [done|].
      apply list_lookup_singleton_Some in Hj as [_ <-]. by destruct op.
  - pose proof (lookup_lt_Some _ _ _ Hi) as Hlen. rewrite Hlock in Hstep.
    destruct (decide (i = i0)) as [->|Hne].
    2:{ by rewrite (resting_waits _ _ (Hothers i c Hi Hne)) in Hstep. }
    assert (c0 = c) as -> by congruence.
    assert (∀ j c1 x, <[i0:=x]> (running s) !! j = Some c1 → j ≠ i0 → resting c1)
      as Hothers'.
    { intros j c1 x Hj Hne. rewrite list_lookup_insert_ne in Hj by done. eauto. }
    destruct Hd as [P k HP1|P f k HP1 Hk|P k HP1 Hk]; simpl in Hstep; [done| |];
      injection Hstep as <- <- <-.
    + split.
      * split; [done|]. exists i0, k, (λ m', ∃ m, P m ∧ m' = f m).
        split; [by apply list_lookup_insert_eq|]. split; [by exists (mon s)|].
        split; [done | eauto].
      * intros j c Hj Hret. destruct (decide (j = i0)) as [->|Hne].
        -- rewrite list_lookup_insert_eq in Hj by done. injection Hj as <-.
           by destruct Hk.
        -- by rewrite list_lookup_insert_ne in Hj.
    + split.
      * split; [done|]. exists i0, (k (mon s)), P.
        split; [by apply list_lookup_insert_eq|]. split; [done|].
        split; [done | eauto].
      * intros j c Hj Hret. destruct (decide (j = i0)) as [->|Hne].
        -- rewrite list_lookup_insert_eq in Hj by done. injection Hj as <-.
           by destruct (Hk (mon s)).
        -- by rewrite list_lookup_insert_ne in Hj.
Qed.

(** X13. Once a request has been recorded the monitor is lost to every
    other caller: from then on the lock stays taken for good, and no call
    of any method, whether it was already running or is made later, ever
    returns; the tasks that have returned are those that had returned
    before. *)
Theorem recorded_request_blocks_every_caller (capacity : nat) (now : string)
    (s s' : system) :
  rtc sys_step (fresh_system capacity now) s →
  total_requests (mon s) ≠ 0 →
  rtc sys_step s s' →
  lock_held s' = true
  ∧ ∀ j c, running s' !! j = Some c → returned c = true → running s !! j = Some c.
Proof.
  intros Hs%reachable_coherent Htotal Hs'.
  assert (jammed s) as Hjam.
  { unfold coherent in Hs. unfold jammed. destruct (lock_held s).
    - destruct Hs as (i & c & Hi & Hothers & [[_ Hm]|(P & HP & Hd)]).
      + by destruct Hm as [? _].
      + split; [done|]. by exists i, c, P.
    - by destruct Hs as [[? _] _]. }
  assert (jammed s' ∧
          ∀ j c, running s' !! j = Some c → returned c = true → running s !! j = Some c)
    as [[Hlock _] Hret]; [|done].
  revert s' Hs'. apply rtc_ind_r; [done|].
  intros s1 s2 _ Hstep [Hjam1 Hret1].
  destruct (sys_step_jammed _ _ Hstep Hjam1) as [Hjam2 Hret2]. eauto.
Qed.

Lemma recorded_request_blocks_every_caller_witness :
  rtc sys_step (fresh_system 1000 "t0") sample_recording
  ∧ total_requests (mon sample_recording) ≠ 0
  ∧ rtc sys_step sample_recording sample_recording_then_stats
  ∧ lock_held sample_recording_then_stats = true
  ∧ ∀ j c, running sample_recording_then_stats !! j = Some c → returned c = true →
      running sample_recording !! j = Some c.
Proof.
  assert (total_requests (mon sample_recording) ≠ 0) as Htotal by (vm_compute; lia).
  assert (rtc sys_step sample_recording sample_recording_then_stats) as Hlater.
  { eapply rtc_l; [exact (step_call _ GetStats)|]. apply advance_reachable. }
  split; [exact sample_recording_reachable|]. split; [exact Htotal|].
  split; [exact Hlater|].
  exact (recorded_request_blocks_every_caller 1000 "t0" sample_recording
           sample_recording_then_stats sample_recording_reachable Htotal Hlater).
Defined.

(** ** Writing the log and reading it back *)

Lemma last_deque_append {A} (maxlen : nat) (d : list A) (x : A) :
  1 ≤ maxlen → last (deque_append maxlen d x) = Some x.
Proof.
  intros Hmax. unfold deque_append.
  destruct (Nat.ltb_spec maxlen (length (d ++ [x]))) as [Hlt|_]; [|apply last_snoc].
  destruct d as [|y d]; simpl in *; [lia|]. apply last_snoc.
Qed.

Lemma last_slice_spec {A} (limit : Z) (l : list A) :
  (0 < limit)%Z →
  last_slice limit l `suffix_of` l
  ∧ length (last_slice limit l) = Nat.min (Z.to_nat limit) (length l)
  ∧ last (last_slice limit l) = last l.
Proof.
  intros Hlimit. unfold last_slice. destruct (Z.ltb_spec 0 limit) as [_|?]; [|lia].
  split; [apply suffix_drop|]. split; [rewrite length_drop; lia|].
  destruct (decide (length l = 0)) as [Hnil|Hne].
  { apply nil_length_inv in Hnil as ->. by rewrite drop_nil. }
  assert (drop (length l - Z.to_nat limit) l ≠ []) as Hdrop.
  { intros Hnil%(f_equal length). rewrite length_drop in Hnil. simpl in Hnil. lia. }
  pose proof (last_app (take (length l - Z.to_nat limit) l)
                       (drop (length l - Z.to_nat limit) l)) as Happ.
  rewrite take_drop in Happ. rewrite Happ.
  destruct (last (drop _ l)) as [y|] eqn:Hlast; [done|].
  by apply last_None in Hlast.
Qed.

(** X14. An entry written with [add_log] is read back by
    [get_recent_logs]: on a monitor whose lock is free and whose log has
    room for at least one entry, the two calls run to their end and free
    the lock, and for a positive [limit] the list returned ends with the
    new entry, is the tail of the log and has [limit] entries or, if the
    log is shorter, all of them. *)
Theorem logged_entry_is_read_back (now level message : string)
    (details : option (gmap string json)) (limit : Z) (m : monitor) :
  1 ≤ max_log_entries m → (0 < limit)%Z →
  ∃ m' logs,
    run 8 m false (add_log now level message details;; get_recent_logs limit)
    = (m', false, Done logs)
    ∧ m' = append_log (LogEntry now level message (default ∅ details)) m
    ∧ last logs = Some (LogEntry now level message (default ∅ details))
    ∧ logs `suffix_of` recent_logs m'
    ∧ length logs = Nat.min (Z.to_nat limit) (length (recent_logs m')).
Proof.
  intros Hroom Hlimit. eexists _, _. split; [reflexivity|]. split; [reflexivity|].
  destruct (last_slice_spec limit
              (recent_logs (append_log (LogEntry now level message (default ∅ details)) m))
              Hlimit) as (Hsuffix & Hlength & Hlast).
  split; [|by split]. rewrite Hlast. simpl. by apply last_deque_append.
Qed.

Lemma logged_entry_is_read_back_witness :
  1 ≤ max_log_entries (RequestMonitor 2 "t0") ∧ (0 < 5)%Z
  ∧ ∃ m' logs,
      run 8 (RequestMonitor 2 "t0") false
          (add_log "t1" "INFO" "GET /" None;; get_recent_logs 5)
      = (m', false, Done logs)
      ∧ m' = append_log (LogEntry "t1" "INFO" "GET /" (default ∅ None))
                        (RequestMonitor 2 "t0")
      ∧ last logs = Some (LogEntry "t1" "INFO" "GET /" (default ∅ None))
      ∧ logs `suffix_of` recent_logs m'
      ∧ length logs = Nat.min (Z.to_nat 5) (length (recent_logs m')).
Proof.
  assert (1 ≤ max_log_entries (RequestMonitor 2 "t0")) as H1 by (simpl; lia).
  assert (0 < 5)%Z as H2 by lia.
  split; [exact H1|]. split; [exact H2|].
  exact (logged_entry_is_read_back "t1" "INFO" "GET /" None 5 (RequestMonitor 2 "t0") H1 H2).
Defined.
